(** * FuzzyPatch: parser, locator and applier

    A shallow embedding of the Go package [fuzzypatch]: the diff-block
    lexer and parser of [parse.go] ([tokenize], [Parse]) and the locator and
    applier of the main file ([Search], [Apply], [similarity], [trimSplit]).

    Go strings are byte sequences: they are modelled as [string], whose
    characters are the 8-bit [ascii].  Go's [int] is modelled as [Z]; lengths
    and line indices stay far below [2^63], the one place where wrap-around
    can be observed ([diff.Line - 1]) has it written out.  [float64] is the
    kernel's binary64 [float]. *)

From Stdlib Require Import ZArith List String Ascii Bool Lia Permutation Sorted.
From Stdlib Require Import Floats.
From Stdlib Require Uint63.
Import ListNotations.

Open Scope string_scope.
Open Scope list_scope.
Open Scope Z_scope.

(** ** Outcomes of a Go computation *)

(** A run either returns, panics (index or slice bound out of range), or is
    cut off by the fuel of a loop model. *)
Inductive run (A : Type) : Type :=
| Ret (a : A)
| Panic
| OutOfFuel.
Arguments Ret {A} a.
Arguments Panic {A}.
Arguments OutOfFuel {A}.

Definition bind {A B : Type} (c : run A) (k : A -> run B) : run B :=
  match c with
  | Ret a => k a
  | Panic => Panic
  | OutOfFuel => OutOfFuel
  end.

Notation "x <- c ;; k" := (bind c (fun x => k))
  (at level 61, c at next level, right associativity).

(** ** Strings and slices *)

Definition nl : ascii := "010"%char.
Definition cr : ascii := "013"%char.

(** [len(s)]: the number of bytes. *)
Definition len (s : string) : Z := Z.of_nat (String.length s).

Fixpoint drop (n : nat) (s : string) : string :=
  match n, s with
  | O, _ => s
  | S n', String _ s' => drop n' s'
  | S _, EmptyString => EmptyString
  end.

Fixpoint take (n : nat) (s : string) : string :=
  match n, s with
  | S n', String c s' => String c (take n' s')
  | _, _ => EmptyString
  end.

Fixpoint rev_string (acc s : string) : string :=
  match s with
  | EmptyString => acc
  | String c s' => rev_string (String c acc) s'
  end.

(** [strings.Join(elems, "")] is the only use of Join in the source. *)
Fixpoint Join (elems : list string) : string :=
  match elems with
  | [] => EmptyString
  | e :: es => String.append e (Join es)
  end.

(** [strings.SplitAfter(s, "\n")]: cut after every newline; always at least
    one piece, the last one empty when [s] ends with a newline. *)
Fixpoint SplitAfter (s : string) : list string :=
  match s with
  | EmptyString => [EmptyString]
  | String c s' =>
      if Ascii.eqb c nl then String c EmptyString :: SplitAfter s'
      else match SplitAfter s' with
           | [] => [String c EmptyString]
           | l :: ls => String c l :: ls
           end
  end.

(** [strings.Lines(s)]: the newline-terminated lines, terminators kept; no
    line at all for the empty string. *)
Fixpoint Lines (s : string) : list string :=
  match s with
  | EmptyString => []
  | String c s' =>
      if Ascii.eqb c nl then String c EmptyString :: Lines s'
      else match Lines s' with
           | [] => [String c EmptyString]
           | l :: ls => String c l :: ls
           end
  end.

Definition HasPrefix (s prefix : string) : bool := String.prefix prefix s.

Definition CutPrefix (s prefix : string) : string * bool :=
  if HasPrefix s prefix then (drop (String.length prefix) s, true) else (s, false).

Fixpoint in_cutset (c : ascii) (cutset : string) : bool :=
  match cutset with
  | EmptyString => false
  | String d cutset' => Ascii.eqb c d || in_cutset c cutset'
  end.

(** [strings.TrimRight(s, cutset)] for a cutset of single-byte characters. *)
Fixpoint TrimRight (s cutset : string) : string :=
  match s with
  | EmptyString => EmptyString
  | String c s' =>
      match TrimRight s' cutset with
      | EmptyString => if in_cutset c cutset then EmptyString else String c EmptyString
      | t => String c t
      end
  end.

Definition bytes (l : list nat) : string :=
  string_of_list_ascii (map ascii_of_nat l).

(** The UTF-8 encodings of the code points for which [unicode.IsSpace] holds:
    tab, LF, VT, FF, CR, space, U+0085, U+00A0, U+1680, U+2000..U+200A,
    U+2028, U+2029, U+202F, U+205F, U+3000. *)
Definition space_runes : list string :=
  map bytes
    [ [9]; [10]; [11]; [12]; [13]; [32];
      [194; 133]; [194; 160]; [225; 154; 128];
      [226; 128; 128]; [226; 128; 129]; [226; 128; 130]; [226; 128; 131];
      [226; 128; 132]; [226; 128; 133]; [226; 128; 134]; [226; 128; 135];
      [226; 128; 136]; [226; 128; 137]; [226; 128; 138];
      [226; 128; 168]; [226; 128; 169]; [226; 128; 175];
      [226; 129; 159]; [227; 128; 128] ]%nat.

Fixpoint trim_runes_left (fuel : nat) (runes : list string) (s : string) : string :=
  match fuel with
  | O => s
  | S fuel' =>
      match find (fun r => String.prefix r s) runes with
      | Some r => trim_runes_left fuel' runes (drop (String.length r) s)
      | None => s
      end
  end.

(** [strings.TrimSpace(s)]: leading, then trailing white space removed. A
    byte sequence that is not the encoding of a space rune stops the trim. *)
Definition TrimSpace (s : string) : string :=
  let l := trim_runes_left (String.length s) space_runes s in
  let r := trim_runes_left (String.length l)
             (map (rev_string EmptyString) space_runes)
             (rev_string EmptyString l) in
  rev_string EmptyString r.

(** The bounds of Go's [int] (64 bits). *)
Definition minInt : Z := - 2 ^ 63.
Definition maxInt : Z := 2 ^ 63 - 1.

(** Two's complement wrap-around of [int] arithmetic. *)
Definition wrap_int (z : Z) : Z := (z + 2 ^ 63) mod 2 ^ 64 - 2 ^ 63.

Definition digit_of (c : ascii) : option Z :=
  let n := Z.of_nat (nat_of_ascii c) in
  if (48 <=? n) && (n <=? 57) then Some (n - 48) else None.

Fixpoint parse_digits (acc : Z) (s : string) : option Z :=
  match s with
  | EmptyString => Some acc
  | String c s' =>
      match digit_of c with
      | Some d => parse_digits (acc * 10 + d) s'
      | None => None
      end
  end.

(** [strconv.Atoi]: an optional sign, then at least one decimal digit; a
    value outside [int] is an error ([None]). *)
Definition Atoi (s : string) : option Z :=
  let '(neg, body) :=
    match s with
    | String c r =>
        if Ascii.eqb c "+" then (false, r)
        else if Ascii.eqb c "-" then (true, r)
        else (false, s)
    | EmptyString => (false, s)
    end in
  match body with
  | EmptyString => None
  | _ =>
      match parse_digits 0 body with
      | Some n =>
          let v := if neg then - n else n in
          if (minInt <=? v) && (v <=? maxInt) then Some v else None
      | None => None
      end
  end.

Definition digit_char (d : Z) : ascii := ascii_of_nat (Z.to_nat (48 + d)).

Fixpoint utoa (fuel : nat) (n : Z) (acc : string) : string :=
  match fuel with
  | O => acc
  | S fuel' =>
      let acc' := String (digit_char (n mod 10)) acc in
      if n <? 10 then acc' else utoa fuel' (n / 10) acc'
  end.

(** [strconv.Itoa]: the decimal rendering of an [int] (at most 19 digits).
    The source does not call it; it writes the hint of a diff block. *)
Definition Itoa (z : Z) : string :=
  if z <? 0 then String "-" (utoa 19 (- z) EmptyString)
  else utoa 19 z EmptyString.

(** [s[lo:hi]] on a slice, with the bound taken against the length: Go
    checks [hi] against the capacity, so every slicing that returns here
    returns in Go as well, on the same elements. *)
Definition slice {A : Type} (l : list A) (lo hi : Z) : run (list A) :=
  if (0 <=? lo) && (lo <=? hi) && (hi <=? Z.of_nat (List.length l))
  then Ret (firstn (Z.to_nat (hi - lo)) (skipn (Z.to_nat lo) l))
  else Panic.

(** [s[i]]. *)
Definition index {A : Type} (l : list A) (i : Z) : run A :=
  if (0 <=? i) && (i <? Z.of_nat (List.length l))
  then match nth_error l (Z.to_nat i) with
       | Some x => Ret x
       | None => Panic
       end
  else Panic.

(** ** Data model *)

(** The zero value of Go's [string]. *)
Definition no_text : string := EmptyString.

Record Diff : Type := mkDiff {
  Diff_Line : Z;          (* 1-based line number where the search should start *)
  Diff_Search : string;   (* text to find in the document *)
  Diff_Replace : string   (* text to replace the found section with *)
}.

Record Edit : Type := mkEdit {
  Edit_Start : Z;         (* byte offset where the edit starts (inclusive) *)
  Edit_End : Z;           (* byte offset where the edit ends (exclusive) *)
  Edit_Text : string      (* new text for the section between Start and End *)
}.

(** [Diff{}] and [Edit{}]. *)
Definition zero_Diff : Diff := mkDiff 0 no_text no_text.
Definition zero_Edit : Edit := mkEdit 0 0 no_text.

(** ** parse.go: the lexer *)

Inductive tokenType : Type :=
| startSearchType
| textSeparatorType
| endReplaceType
| textType
| invalidType
| EOF.

Definition tokenType_eqb (a b : tokenType) : bool :=
  match a, b with
  | startSearchType, startSearchType
  | textSeparatorType, textSeparatorType
  | endReplaceType, endReplaceType
  | textType, textType
  | invalidType, invalidType
  | EOF, EOF => true
  | _, _ => false
  end.

Definition startSearchPrefix : string := "<<<<<<< SEARCH".
Definition textSeparator : string := "=======".
Definition endReplace : string := ">>>>>>> REPLACE".

Record token : Type := mkToken {
  token_Type : tokenType;
  token_Line : Z;
  token_Text : string
}.

(** The [switch] of [tokenize] on one line. *)
Definition classify_line (line : string) : tokenType :=
  let trim := TrimRight line (String cr (String nl EmptyString)) in
  if HasPrefix line startSearchPrefix then startSearchType
  else if String.eqb trim textSeparator then textSeparatorType
  else if String.eqb trim endReplace then endReplaceType
  else textType.

Fixpoint tokenize_from (lineNo : Z) (lines : list string) : list token :=
  match lines with
  | [] => [mkToken EOF 0 no_text]
  | line :: lines' =>
      mkToken (classify_line line) lineNo line :: tokenize_from (lineNo + 1) lines'
  end.

(** The whole sequence that the iterator of [tokenize] yields when it is
    pulled to its end (the parser never stops it early). *)
Definition tokenize (input : string) : list token :=
  tokenize_from 0 (Lines input).

(** ** parse.go: the parser *)

(** [next] of [iter.Pull] hands out the tokens of [parser_rest] one by one
    and then reports [ok = false] for ever. *)
Record parser : Type := mkParser {
  parser_current : token;
  parser_rest : list token
}.

Inductive ParseError : Type :=
| ErrExpected (want got : tokenType) (text : string) (line : Z)
    (* "expected %s, got %s: %q (line %d))" *)
| ErrHint (text : string)
    (* "expected %s, got %q": no [line:] after the marker *)
| ErrHintNumber (text : string).
    (* "expected %s, got %q: %w": [strconv.Atoi] failed *)

Definition read (p : parser) : token * parser :=
  match parser_rest p with
  | [] => (parser_current p, mkParser (mkToken invalidType 0 no_text) [])
  | tok :: rest => (parser_current p, mkParser tok rest)
  end.

Definition expect (typ : tokenType) (p : parser) : (token * option ParseError) * parser :=
  let '(tok, p') := read p in
  if negb (tokenType_eqb (token_Type tok) typ)
  then ((mkToken startSearchType 0 no_text,
         Some (ErrExpected typ (token_Type tok) (token_Text tok) (token_Line tok))), p')
  else ((tok, None), p').

(** The first loop of [parseStartSearch]: blank text lines are read away.
    The recursion is on the tokens that [next] still holds; once they are
    used up [read] leaves an invalid token, which ends the loop. *)
Fixpoint skip_blank (current : token) (rest : list token) : parser :=
  if tokenType_eqb (token_Type current) textType
     && String.eqb (TrimSpace (token_Text current)) EmptyString
  then match rest with
       | [] => mkParser (mkToken invalidType 0 no_text) []
       | tok :: rest' => skip_blank tok rest'
       end
  else mkParser current rest.

Definition parseStartSearch (p : parser) : (Z * option ParseError) * parser :=
  let p1 := skip_blank (parser_current p) (parser_rest p) in
  let '((tok, err), p2) := expect startSearchType p1 in
  match err with
  | Some e => ((0, Some e), p2)
  | None =>
      let '(suffix, _) := CutPrefix (token_Text tok) startSearchPrefix in
      let '(lineStr, ok) := CutPrefix (TrimSpace suffix) "line:" in
      if negb ok then ((0, Some (ErrHint (token_Text tok))), p2)
      else match Atoi lineStr with
           | None => ((0, Some (ErrHintNumber (token_Text tok))), p2)
           | Some line => ((line, None), p2)
           end
  end.

(** [for p.current.Type == textType { acc += p.current.Text; p.read() }] *)
Fixpoint read_text (acc : string) (current : token) (rest : list token) : string * parser :=
  if tokenType_eqb (token_Type current) textType
  then match rest with
       | [] => (String.append acc (token_Text current),
                mkParser (mkToken invalidType 0 no_text) [])
       | tok :: rest' => read_text (String.append acc (token_Text current)) tok rest'
       end
  else (acc, mkParser current rest).

Definition parseDiff (p : parser) : (Diff * option ParseError) * parser :=
  let '((line, err), p1) := parseStartSearch p in
  match err with
  | Some e => ((zero_Diff, Some e), p1)
  | None =>
      let '(search, p2) := read_text no_text (parser_current p1) (parser_rest p1) in
      let '((_, err), p3) := expect textSeparatorType p2 in
      match err with
      | Some e => ((zero_Diff, Some e), p3)
      | None =>
          let '(replace, p4) := read_text no_text (parser_current p3) (parser_rest p3) in
          let '((_, err), p5) := expect endReplaceType p4 in
          match err with
          | Some _ => ((zero_Diff, None), p5)   (* [return Diff{}, nil] *)
          | None => ((mkDiff line search replace, None), p5)
          end
      end
  end.

(** The loop of [Parse]. Every round that does not fail takes tokens from
    [next], which bounds the number of rounds ([parse_loop_fuel_enough]). *)
Fixpoint parse_loop (fuel : nat) (p : parser) (diffs : list Diff)
  : run (list Diff * option ParseError) :=
  match fuel with
  | O => OutOfFuel
  | S fuel' =>
      if tokenType_eqb (token_Type (parser_current p)) EOF then Ret (diffs, None)
      else
        let '((diff, err), p') := parseDiff p in
        match err with
        | Some e => Ret ([], Some e)
        | None => parse_loop fuel' p' (diffs ++ [diff])
        end
  end.

Definition Parse (input : string) : run (list Diff * option ParseError) :=
  let tokens := tokenize input in
  let '(_, p) := read (mkParser (mkToken startSearchType 0 no_text) tokens) in
  parse_loop (S (List.length tokens)) p [].

(** ** The locator *)

(** Modelled from the spec: [levenshtein.ComputeDistance] of the imported
    package [github.com/agnivade/levenshtein], whose code is not part of the
    repository. The spec describes it as the standard single-character
    insert/delete/substitute edit distance over the raw bytes; this is the
    textbook recurrence. The results about [Search] below use only
    [ComputeDistance a a = 0]. *)
Fixpoint ComputeDistance (a : string) : string -> Z :=
  fix against (b : string) : Z :=
    match a with
    | EmptyString => len b
    | String x a' =>
        match b with
        | EmptyString => len a
        | String y b' =>
            Z.min (Z.min (ComputeDistance a' b + 1) (against b' + 1))
                  (ComputeDistance a' b' + (if Ascii.eqb x y then 0 else 1))
        end
    end.

(** Edit scripts, read from left to right: keep a byte, substitute it,
    delete it, or insert one; the index is the number of edits. *)
Inductive edit_script : string -> string -> Z -> Prop :=
| script_done : edit_script EmptyString EmptyString 0
| script_keep c a b n :
    edit_script a b n -> edit_script (String c a) (String c b) n
| script_substitute c d a b n :
    edit_script a b n -> edit_script (String c a) (String d b) (n + 1)
| script_delete c a b n :
    edit_script a b n -> edit_script (String c a) b (n + 1)
| script_insert d a b n :
    edit_script a b n -> edit_script a (String d b) (n + 1).

(** [float64(n)] for an [int] [0 <= n < 2^63]. *)
Definition float64_of_int (n : Z) : float := PrimFloat.of_uint63 (Uint63.of_Z n).

Definition similarity (a b : string) : float :=
  if (len a =? 0) && (len b =? 0) then 1%float
  else
    let dist := ComputeDistance a b in
    (1 - float64_of_int dist / float64_of_int (Z.max (len a) (len b)))%float.

Definition trimSplit (s : string) : list string :=
  let lines := SplitAfter s in
  if (0 <? Z.of_nat (List.length lines)) && String.eqb (last lines "?") EmptyString
  then removelast lines
  else lines.

(** [offsets[i]] is the start byte of line [i]; the table has one more entry
    than there are lines. [build_offsets 0 lines] is the table that the loop
    [offsets[i+1] = offsets[i] + len(l)] fills. *)
Fixpoint build_offsets (from : Z) (lines : list string) : list Z :=
  from :: match lines with
          | [] => []
          | l :: lines' => build_offsets (from + len l) lines'
          end.

(** The hint, zero-based and clamped into the lines of the document. *)
Definition clamp_hint (line nLines : Z) : Z :=
  Z.max 0 (Z.min (wrap_int (line - 1)) (nLines - 1)).

(** One candidate of the loop: the lines [at .. at+nSearch) are compared
    with the search text, and the edit is built when they are close enough. *)
Definition try_candidate (lines : list string) (offsets : list Z) (diff : Diff)
    (threshold : float) (nSearch at_ : Z) : run (option Edit) :=
  chunk <- slice lines at_ (at_ + nSearch) ;;
  if (threshold <=? similarity (Join chunk) (Diff_Search diff))%float
  then
    start <- index offsets at_ ;;
    end_ <- index offsets (at_ + nSearch) ;;
    Ret (Some (mkEdit start end_ (Diff_Replace diff)))
  else Ret None.

Definition above_in_range (nLines nSearch startIdx radius : Z) : bool :=
  (0 <=? startIdx - radius) && (startIdx - radius + nSearch <=? nLines).

Definition below_in_range (nLines nSearch startIdx radius : Z) : bool :=
  (0 <? radius) && (startIdx + radius + nSearch <=? nLines).

(** [for radius := 0; ; radius++ { ... }] *)
Fixpoint search_loop (fuel : nat) (lines : list string) (offsets : list Z)
    (diff : Diff) (threshold : float) (nSearch startIdx radius : Z)
  : run (Edit * bool) :=
  match fuel with
  | O => OutOfFuel
  | S fuel' =>
      let nLines := Z.of_nat (List.length lines) in
      let left := startIdx - radius in
      above <- (if above_in_range nLines nSearch startIdx radius
                then try_candidate lines offsets diff threshold nSearch left
                else Ret None) ;;
      match above with
      | Some e => Ret (e, true)
      | None =>
          let right := startIdx + radius in
          below <- (if below_in_range nLines nSearch startIdx radius
                    then try_candidate lines offsets diff threshold nSearch right
                    else Ret None) ;;
          match below with
          | Some e => Ret (e, true)
          | None =>
              let tried := above_in_range nLines nSearch startIdx radius
                           || below_in_range nLines nSearch startIdx radius in
              if negb tried then Ret (zero_Edit, false)
              else search_loop fuel' lines offsets diff threshold nSearch startIdx (radius + 1)
          end
      end
  end.

Definition Search (source : string) (diff : Diff) (threshold : float) : run (Edit * bool) :=
  let lines := trimSplit source in
  let nLines := Z.of_nat (List.length lines) in
  if nLines =? 0 then Ret (zero_Edit, false)
  else
    let offsets := build_offsets 0 lines in
    let searchLines := trimSplit (Diff_Search diff) in
    let nSearch := Z.of_nat (List.length searchLines) in
    if (nSearch =? 0) || (nSearch >? nLines) then Ret (zero_Edit, false)
    else
      let startIdx := clamp_hint (Diff_Line diff) nLines in
      search_loop (S (List.length lines)) lines offsets diff threshold nSearch startIdx 0.

(** The order in which [search_loop] looks at candidates, as start lines:
    radius by radius, above and then below, until a radius has neither. *)
Fixpoint examined (fuel : nat) (nLines nSearch startIdx radius : Z) : list Z :=
  match fuel with
  | O => []
  | S fuel' =>
      let above := above_in_range nLines nSearch startIdx radius in
      let below := below_in_range nLines nSearch startIdx radius in
      if above || below
      then (if above then [startIdx - radius] else [])
           ++ (if below then [startIdx + radius] else [])
           ++ examined fuel' nLines nSearch startIdx (radius + 1)
      else []
  end.

(** The order as the specification words it: every radius [0 .. nLines],
    above and (for a positive radius) below, each candidate that lies
    within the lines of the document. *)
Definition all_in_range_candidates (nLines nSearch startIdx : Z) : list Z :=
  flat_map
    (fun r =>
       (if above_in_range nLines nSearch startIdx r then [startIdx - r] else [])
       ++ (if below_in_range nLines nSearch startIdx r then [startIdx + r] else []))
    (map Z.of_nat (seq 0 (S (Z.to_nat nLines)))).

(** Lines [at .. at+nSearch) of the document, joined. *)
Definition chunk_at (lines : list string) (nSearch at_ : Z) : string :=
  Join (firstn (Z.to_nat nSearch) (skipn (Z.to_nat at_) lines)).

(** The byte offset at which line [i] starts: the length of what is before. *)
Definition line_offset (lines : list string) (i : Z) : Z :=
  len (Join (firstn (Z.to_nat i) lines)).

Definition edit_at (lines : list string) (diff : Diff) (nSearch at_ : Z) : Edit :=
  mkEdit (line_offset lines at_) (line_offset lines (at_ + nSearch)) (Diff_Replace diff).

Definition acceptable (lines : list string) (diff : Diff) (threshold : float)
    (nSearch at_ : Z) : bool :=
  (threshold <=? similarity (chunk_at lines nSearch at_) (Diff_Search diff))%float.

(** The first candidate of [candidates] that is close enough, as an edit;
    the zero edit and [false] when there is none. *)
Definition first_acceptable (lines : list string) (diff : Diff) (threshold : float)
    (nSearch : Z) (candidates : list Z) : Edit * bool :=
  match find (acceptable lines diff threshold nSearch) candidates with
  | Some at_ => (edit_at lines diff nSearch at_, true)
  | None => (zero_Edit, false)
  end.

(** ** The applier *)

Inductive ApplyError : Type :=
| ErrInvalidRange (start end_ : Z)   (* "invalid edit range [%d,%d)" *)
| ErrOverlap (start end_ : Z).       (* "overlapping edits at [%d,%d)" *)

(** The inner loop of an insertion sort with [less(i, j)] being
    [edits[i].Start > edits[j].Start]: the new element moves left while the
    one before it has a smaller [Start]. The sorted prefix is held reversed,
    so the one before comes first. *)
Fixpoint move_left (e : Edit) (before : list Edit) : list Edit :=
  match before with
  | [] => [e]
  | prev :: before' =>
      if Edit_Start e >? Edit_Start prev then prev :: move_left e before'
      else e :: before
  end.

(** [sort.Slice(edits, func(i, j) { return edits[i].Start > edits[j].Start })].
    [sort.Slice] belongs to Go's library, which sorts a slice of at most 12
    elements by this insertion sort. For longer slices it promises a
    permutation in the order of [less] and nothing on the order of equal
    elements; [sorted_permutation_unique] covers what follows from that. *)
Definition sort_Slice (edits : list Edit) : list Edit :=
  rev (fold_left (fun before e => move_left e before) edits []).

(** [data[:Start] + Text + data[End:]] *)
Definition splice (data : string) (e : Edit) : string :=
  String.append (take (Z.to_nat (Edit_Start e)) data)
    (String.append (Edit_Text e) (drop (Z.to_nat (Edit_End e)) data)).

(** [e.Start < 0 || e.End < e.Start || e.End > len(data)] *)
Definition invalid_range (data : string) (e : Edit) : bool :=
  (Edit_Start e <? 0) || (Edit_End e <? Edit_Start e) || (Edit_End e >? len data).

Fixpoint apply_loop (edits : list Edit) (data : string) (lastEnd : Z)
  : string * option ApplyError :=
  match edits with
  | [] => (data, None)
  | e :: edits' =>
      if invalid_range data e
      then (no_text, Some (ErrInvalidRange (Edit_Start e) (Edit_End e)))
      else if Edit_End e >? lastEnd
      then (no_text, Some (ErrOverlap (Edit_Start e) (Edit_End e)))
      else apply_loop edits' (splice data e) (Edit_Start e)
  end.

Definition Apply (source : string) (edits : list Edit) : string * option ApplyError :=
  if Z.of_nat (List.length edits) =? 0 then (source, None)
  else apply_loop (sort_Slice edits) source (len source).

(** [a] and [b] share at least one byte position. *)
Definition ranges_intersect (a b : Edit) : Prop :=
  Z.max (Edit_Start a) (Edit_Start b) < Z.min (Edit_End a) (Edit_End b).

Definition in_bounds (source : string) (e : Edit) : Prop :=
  0 <= Edit_Start e <= Edit_End e /\ Edit_End e <= len source.

(** Of two edits given in the order [a], [b], the one that the sort puts
    first, and the other one. *)
Definition applied_first (a b : Edit) : Edit :=
  if Edit_Start b >? Edit_Start a then b else a.
Definition applied_second (a b : Edit) : Edit :=
  if Edit_Start b >? Edit_Start a then a else b.

(** With [first] spliced in, the buffer holds the document less the range of
    [first] plus its text; [second] ends within that many bytes. *)
Definition ends_within_after (source : string) (first second : Edit) : Prop :=
  Edit_End second
  <= len source - (Edit_End first - Edit_Start first) + len (Edit_Text first).

(** The orders of the sort, ascending. *)
Definition start_le (a b : Edit) : Prop := Edit_Start a <= Edit_Start b.
Definition start_lt (a b : Edit) : Prop := Edit_Start a < Edit_Start b.

(** No two edits of the list share a byte position. *)
Definition pairwise_disjoint (edits : list Edit) : Prop :=
  ForallOrdPairs (fun a b => ~ ranges_intersect a b) edits.

(** [a] is an insertion (its range is empty) at a position strictly inside
    the range of [b]. *)
Definition inserted_inside (a b : Edit) : Prop :=
  Edit_Start a = Edit_End a /\ Edit_Start b < Edit_Start a < Edit_End b.

Definition no_insertion_inside (edits : list Edit) : Prop :=
  ForallOrdPairs (fun a b => ~ inserted_inside a b /\ ~ inserted_inside b a) edits.

(** One of the two edits ends where the other starts, or before. *)
Definition separated (a b : Edit) : Prop :=
  Edit_End a <= Edit_Start b \/ Edit_End b <= Edit_Start a.

(** ** Character classes of a line hint *)

Fixpoint all_chars (p : ascii -> bool) (s : string) : bool :=
  match s with
  | EmptyString => true
  | String c s' => p c && all_chars p s'
  end.

Definition is_digit (c : ascii) : bool :=
  match digit_of c with
  | Some _ => true
  | None => false
  end.

Definition is_hint_char (c : ascii) : bool :=
  is_digit c || Ascii.eqb c "+" || Ascii.eqb c "-".

(** [r] does not begin with [c]. *)
Definition begins_otherwise (c : ascii) (r : string) : bool :=
  match r with
  | String d _ => negb (Ascii.eqb d c)
  | EmptyString => false
  end.

(** ** Sample inputs *)

Definition three_lines : string := "a
b
c
".

Definition one_line : string := "a
".

Definition line_b : string := "b
".

Definition lines_ab : string := "a
b
".

(** A diff block: the marker line with its hint, and a body that searches
    for the line [a] and replaces it with the line [b]. *)
Definition marker_line (hint : string) : string :=
  String.append startSearchPrefix
    (String.append " line:" (String.append hint (String nl EmptyString))).

Definition block_body : string := "a
=======
b
>>>>>>> REPLACE
".

Definition hint_block (hint : string) : string :=
  String.append startSearchPrefix
    (String.append " line:" (String.append hint (String nl block_body))).

(** A block whose replace body is followed by a second separator. *)
Definition block_without_end : string := "<<<<<<< SEARCH line:1
a
=======
b
=======
".

(** ** Further notions: the applier *)

(** Bytes [from .. to) of [s]. *)
Definition segment (s : string) (from to : Z) : string :=
  take (Z.to_nat (to - from)) (drop (Z.to_nat from) s).

(** A document rebuilt from left to right: what is between the edits is
    kept, every edit contributes its text. *)
Fixpoint patched_between (source : string) (pos : Z) (ascending : list Edit) (upto : Z)
  : string :=
  match ascending with
  | [] => segment source pos upto
  | e :: rest =>
      String.append (segment source pos (Edit_Start e))
        (String.append (Edit_Text e) (patched_between source (Edit_End e) rest upto))
  end.

Definition patched (source : string) (ascending : list Edit) : string :=
  patched_between source 0 ascending (len source).

(** Edits in ascending order between [pos] and [upto], none reaching into
    the next. *)
Fixpoint ascending_chain (pos : Z) (edits : list Edit) (upto : Z) : Prop :=
  match edits with
  | [] => pos <= upto
  | e :: rest =>
      pos <= Edit_Start e <= Edit_End e /\ ascending_chain (Edit_End e) rest upto
  end.

(** The order in which [apply_loop] accepts edits: each one ends where the
    one before it starts, or earlier. *)
Fixpoint descending_chain (lastEnd : Z) (edits : list Edit) : Prop :=
  match edits with
  | [] => True
  | e :: rest =>
      0 <= Edit_Start e <= Edit_End e /\ Edit_End e <= lastEnd
      /\ descending_chain (Edit_Start e) rest
  end.

(** By how many bytes the edits change the length of a document. *)
Definition size_change (edits : list Edit) : Z :=
  fold_right Z.add 0
    (map (fun e => len (Edit_Text e) - (Edit_End e - Edit_Start e)) edits).

(** ** Further notions: lines *)

Definition is_newline (c : ascii) : bool := Ascii.eqb c nl.

Definition no_newline (s : string) : bool := all_chars (fun c => negb (is_newline c)) s.

(** A line with its terminator: no newline but the last byte. *)
Definition full_line (l : string) : Prop :=
  exists body, no_newline body = true /\ l = String.append body (String nl EmptyString).

(** The last line of a text that does not end with a newline. *)
Definition open_line (l : string) : Prop := no_newline l = true /\ l <> EmptyString.

(** The lines of a text: full ones, and possibly an open one at the end. *)
Fixpoint well_split (lines : list string) : Prop :=
  match lines with
  | [] => True
  | [l] => full_line l \/ open_line l
  | l :: rest => full_line l /\ well_split rest
  end.

(** The second step of [trimSplit]. *)
Definition drop_empty_last (lines : list string) : list string :=
  if (0 <? Z.of_nat (List.length lines)) && String.eqb (last lines "?") EmptyString
  then removelast lines
  else lines.

(** ** Further notions: blocks *)

(** The parser in front of a token sequence: what [read] leaves. *)
Definition parser_at (tokens : list token) : parser :=
  match tokens with
  | tok :: rest => mkParser tok rest
  | [] => mkParser (mkToken invalidType 0 no_text) []
  end.

Definition separator_line : string := String.append textSeparator (String nl EmptyString).
Definition end_line : string := String.append endReplace (String nl EmptyString).

(** A line that can stand in the body of a block. *)
Definition text_line (l : string) : Prop := full_line l /\ classify_line l = textType.

(** A text made of such lines. *)
Definition payload (text : string) : Prop :=
  exists lines, Forall text_line lines /\ text = Join lines.

(** A diff written as a block. *)
Definition render (d : Diff) : string :=
  String.append (marker_line (Itoa (Diff_Line d)))
    (String.append (Diff_Search d)
       (String.append separator_line
          (String.append (Diff_Replace d) end_line))).

Definition renderable (d : Diff) : Prop :=
  minInt <= Diff_Line d <= maxInt /\ payload (Diff_Search d) /\ payload (Diff_Replace d).

(** The lines of a block. *)
Definition block_lines (line : Z) (search replace : list string) : list string :=
  marker_line (Itoa line) :: search ++ separator_line :: replace ++ [end_line].

(** A block given by its lines. *)
Definition block : Type := Z * list string * list string.

Definition lines_of_block (b : block) : list string :=
  let '(line, search, replace) := b in block_lines line search replace.

Definition diff_of_block (b : block) : Diff :=
  let '(line, search, replace) := b in mkDiff line (Join search) (Join replace).

Definition block_ok (b : block) : Prop :=
  let '(line, search, replace) := b in
  minInt <= line <= maxInt /\ Forall text_line search /\ Forall text_line replace.

(** ** Further notions: tokens *)

(** The tokens of the lines, without the closing [EOF]. *)
Fixpoint line_tokens (lineNo : Z) (lines : list string) : list token :=
  match lines with
  | [] => []
  | line :: lines' =>
      mkToken (classify_line line) lineNo line :: line_tokens (lineNo + 1) lines'
  end.

(** The cutset of [TrimRight] in [tokenize]. *)
Definition crlf : string := String cr (String nl EmptyString).

(** A text token that [parseStartSearch] skips. *)
Definition blank_token (tok : token) : Prop :=
  token_Type tok = textType /\ TrimSpace (token_Text tok) = EmptyString.

(** * Properties *)

(** ** Strings *)

Lemma append_empty_r (s : string) : String.append s EmptyString = s.
Proof. induction s as [|c s IH]; simpl; congruence. Qed.

Lemma append_assoc (a b c : string) :
  String.append (String.append a b) c = String.append a (String.append b c).
Proof. induction a as [|x a IH]; simpl; congruence. Qed.

Lemma length_append (a b : string) :
  String.length (String.append a b) = (String.length a + String.length b)%nat.
Proof. induction a as [|x a IH]; simpl; congruence. Qed.

Lemma len_append (a b : string) : len (String.append a b) = len a + len b.
Proof. unfold len. rewrite length_append. lia. Qed.

Lemma len_nonneg (s : string) : 0 <= len s.
Proof. unfold len. lia. Qed.

Lemma len_zero_iff (s : string) : len s = 0 <-> s = EmptyString.
Proof.
  unfold len. destruct s; simpl; split; intros H; try reflexivity; try discriminate; lia.
Qed.

Lemma len_String (c : ascii) (s : string) : len (String c s) = len s + 1.
Proof. unfold len. simpl. lia. Qed.

Lemma Join_app (l1 l2 : list string) :
  Join (l1 ++ l2) = String.append (Join l1) (Join l2).
Proof.
  induction l1 as [|x l1 IH]; simpl; [reflexivity|].
  now rewrite IH, append_assoc.
Qed.

Lemma Join_SplitAfter (s : string) : Join (SplitAfter s) = s.
Proof.
  induction s as [|c s IH]; simpl; [reflexivity|].
  destruct (Ascii.eqb c nl).
  - simpl. now rewrite IH.
  - destruct (SplitAfter s) as [|l ls]; simpl in *; now rewrite <- IH.
Qed.

Lemma Join_trimSplit (s : string) : Join (trimSplit s) = s.
Proof.
  unfold trimSplit.
  destruct (0 <? _) eqn:Hn; simpl; [|apply Join_SplitAfter].
  destruct (String.eqb_spec (last (SplitAfter s) "?") EmptyString) as [Hl|Hl];
    [|apply Join_SplitAfter].
  assert (Hne : SplitAfter s <> []) by (destruct (SplitAfter s); simpl in Hn; [lia|discriminate]).
  rewrite <- (Join_SplitAfter s) at 2.
  rewrite (app_removelast_last "?" Hne) at 2.
  rewrite Join_app, Hl. simpl. now rewrite append_empty_r.
Qed.

Lemma trimSplit_empty : trimSplit EmptyString = [].
Proof. reflexivity. Qed.

Lemma trimSplit_nil_iff (s : string) : trimSplit s = [] <-> s = EmptyString.
Proof.
  split; intros H; [|subst; reflexivity].
  rewrite <- (Join_trimSplit s), H. reflexivity.
Qed.

(** ** Offsets and slices *)

Lemma line_offset_0 (lines : list string) : line_offset lines 0 = 0.
Proof. reflexivity. Qed.

Lemma line_offset_succ (l : string) (lines : list string) (i : Z) :
  0 <= i -> line_offset (l :: lines) (i + 1) = len l + line_offset lines i.
Proof.
  intros Hi. unfold line_offset.
  replace (Z.to_nat (i + 1)) with (S (Z.to_nat i)) by lia.
  simpl. apply len_append.
Qed.

Lemma line_offset_mono (lines : list string) (i j : Z) :
  0 <= i <= j -> line_offset lines i <= line_offset lines j.
Proof.
  intros Hij. unfold line_offset.
  replace (Z.to_nat j) with (Z.to_nat i + Z.to_nat (j - i))%nat by lia.
  rewrite <- (firstn_skipn (Z.to_nat i) (firstn (Z.to_nat i + Z.to_nat (j - i)) lines)).
  rewrite firstn_firstn, Nat.min_l by lia.
  rewrite Join_app, len_append.
  pose proof (len_nonneg (Join (skipn (Z.to_nat i) (firstn (Z.to_nat i + Z.to_nat (j - i)) lines)))).
  lia.
Qed.

Lemma line_offset_all (lines : list string) (i : Z) :
  Z.of_nat (List.length lines) <= i -> line_offset lines i = len (Join lines).
Proof.
  intros Hi. unfold line_offset. rewrite firstn_all2 by lia. reflexivity.
Qed.

Lemma line_offset_nonneg (lines : list string) (i : Z) : 0 <= line_offset lines i.
Proof. apply len_nonneg. Qed.

Lemma line_offset_le_total (lines : list string) (i : Z) :
  line_offset lines i <= len (Join lines).
Proof.
  destruct (Z.le_gt_cases i 0) as [H|H].
  - unfold line_offset. replace (Z.to_nat i) with O by lia. simpl. apply len_nonneg.
  - rewrite <- (line_offset_all lines (Z.max i (Z.of_nat (List.length lines)))) by lia.
    apply line_offset_mono. lia.
Qed.

Lemma chunk_offset (lines : list string) (nSearch at_ : Z) :
  0 <= at_ -> 0 <= nSearch ->
  line_offset lines (at_ + nSearch) = line_offset lines at_ + len (chunk_at lines nSearch at_).
Proof.
  intros Ha Hn. unfold line_offset, chunk_at.
  rewrite <- len_append, <- Join_app. do 2 f_equal.
  replace (Z.to_nat (at_ + nSearch)) with (Z.to_nat at_ + Z.to_nat nSearch)%nat by lia.
  generalize (Z.to_nat at_) as a, (Z.to_nat nSearch) as k. clear.
  intros a; revert lines. induction a as [|a IH]; intros [|l lines] k; simpl;
    try reflexivity.
  - now rewrite firstn_nil.
  - now rewrite IH.
Qed.

Lemma build_offsets_length (lines : list string) (from : Z) :
  List.length (build_offsets from lines) = S (List.length lines).
Proof.
  revert from. induction lines as [|l lines IH]; intros from; simpl; [reflexivity|].
  now rewrite IH.
Qed.

Lemma build_offsets_nth (lines : list string) (from : Z) (i : nat) :
  (i <= List.length lines)%nat ->
  nth_error (build_offsets from lines) i = Some (from + len (Join (firstn i lines))).
Proof.
  revert from i. induction lines as [|l lines IH]; intros from [|i] Hi; simpl in *;
    try (f_equal; change (len EmptyString) with 0; lia).
  rewrite IH by lia. f_equal. rewrite len_append. lia.
Qed.

Lemma index_offsets (lines : list string) (i : Z) :
  0 <= i <= Z.of_nat (List.length lines) ->
  index (build_offsets 0 lines) i = Ret (line_offset lines i).
Proof.
  intros Hi. unfold index. rewrite build_offsets_length.
  replace ((0 <=? i) && (i <? Z.of_nat (S (List.length lines)))) with true
    by (symmetry; apply andb_true_iff; split; [apply Z.leb_le|apply Z.ltb_lt]; lia).
  rewrite build_offsets_nth by lia. reflexivity.
Qed.

Lemma slice_in_range {A : Type} (l : list A) (lo hi : Z) :
  0 <= lo <= hi -> hi <= Z.of_nat (List.length l) ->
  slice l lo hi = Ret (firstn (Z.to_nat (hi - lo)) (skipn (Z.to_nat lo) l)).
Proof.
  intros H1 H2. unfold slice.
  replace ((0 <=? lo) && (lo <=? hi) && (hi <=? Z.of_nat (List.length l))) with true;
    [reflexivity|].
  symmetry. rewrite !andb_true_iff, !Z.leb_le. lia.
Qed.

(** ** Edit distance *)

Lemma ComputeDistance_empty_l (b : string) : ComputeDistance EmptyString b = len b.
Proof. destruct b; reflexivity. Qed.

Lemma ComputeDistance_empty_r (a : string) : ComputeDistance a EmptyString = len a.
Proof. destruct a; reflexivity. Qed.

Lemma ComputeDistance_cons (x y : ascii) (a b : string) :
  ComputeDistance (String x a) (String y b) =
  Z.min (Z.min (ComputeDistance a (String y b) + 1) (ComputeDistance (String x a) b + 1))
        (ComputeDistance a b + (if Ascii.eqb x y then 0 else 1)).
Proof. reflexivity. Qed.

Lemma ComputeDistance_nonneg (a b : string) : 0 <= ComputeDistance a b.
Proof.
  revert b. induction a as [|x a IHa]; intros b.
  - rewrite ComputeDistance_empty_l. apply len_nonneg.
  - induction b as [|y b IHb].
    + rewrite ComputeDistance_empty_r. apply len_nonneg.
    + rewrite ComputeDistance_cons.
      pose proof (IHa (String y b)). pose proof (IHa b).
      destruct (Ascii.eqb x y); lia.
Qed.

Lemma ComputeDistance_same (a : string) : ComputeDistance a a = 0.
Proof.
  induction a as [|x a IH]; [reflexivity|].
  rewrite ComputeDistance_cons, IH, Ascii.eqb_refl.
  pose proof (ComputeDistance_nonneg a (String x a)).
  pose proof (ComputeDistance_nonneg (String x a) a).
  lia.
Qed.

Lemma edit_script_insert_all (b : string) : edit_script EmptyString b (len b).
Proof.
  induction b as [|y b IH]; [constructor|].
  rewrite len_String. now constructor.
Qed.

Lemma edit_script_delete_all (a : string) : edit_script a EmptyString (len a).
Proof.
  induction a as [|x a IH]; [constructor|].
  rewrite len_String. now constructor.
Qed.

Lemma ComputeDistance_script (a b : string) : edit_script a b (ComputeDistance a b).
Proof.
  revert b. induction a as [|x a IHa]; intros b.
  - rewrite ComputeDistance_empty_l. apply edit_script_insert_all.
  - induction b as [|y b IHb].
    + rewrite ComputeDistance_empty_r. apply edit_script_delete_all.
    + rewrite ComputeDistance_cons.
      destruct (Z.min_spec (ComputeDistance a (String y b) + 1)
                           (ComputeDistance (String x a) b + 1)) as [[_ E1]|[_ E1]];
        rewrite E1; clear E1.
      * destruct (Z.min_spec (ComputeDistance a (String y b) + 1)
                    (ComputeDistance a b + (if Ascii.eqb x y then 0 else 1)))
          as [[_ E2]|[_ E2]]; rewrite E2; clear E2.
        -- apply script_delete, IHa.
        -- destruct (Ascii.eqb_spec x y) as [->|_].
           ++ rewrite Z.add_0_r. apply script_keep, IHa.
           ++ apply script_substitute, IHa.
      * destruct (Z.min_spec (ComputeDistance (String x a) b + 1)
                    (ComputeDistance a b + (if Ascii.eqb x y then 0 else 1)))
          as [[_ E2]|[_ E2]]; rewrite E2; clear E2.
        -- apply script_insert, IHb.
        -- destruct (Ascii.eqb_spec x y) as [->|_].
           ++ rewrite Z.add_0_r. apply script_keep, IHa.
           ++ apply script_substitute, IHa.
Qed.

Lemma ComputeDistance_least (a b : string) (n : Z) :
  edit_script a b n -> ComputeDistance a b <= n.
Proof.
  induction 1 as [|c a b n _ IH|c d a b n _ IH|c a b n _ IH|d a b n _ IH].
  - simpl. reflexivity.
  - rewrite ComputeDistance_cons, Ascii.eqb_refl. lia.
  - rewrite ComputeDistance_cons. destruct (Ascii.eqb c d); lia.
  - destruct b as [|y b].
    + rewrite ComputeDistance_empty_r in *. rewrite len_String. lia.
    + rewrite ComputeDistance_cons. lia.
  - destruct a as [|x a].
    + rewrite ComputeDistance_empty_l in *. rewrite len_String. lia.
    + rewrite ComputeDistance_cons. lia.
Qed.

(** ** binary64 facts *)

Section Binary64.
Import SpecFloat.

Lemma digits2_pos_size (p : positive) : digits2_pos p = Pos.size p.
Proof. induction p; simpl; congruence. Qed.

Lemma Zdigits2_pow (m : Z) : 0 < m -> 2 ^ (Zdigits2 m - 1) <= m.
Proof.
  destruct m as [|p|p]; try lia. intros _.
  change (Zdigits2 (Z.pos p)) with (Z.pos (digits2_pos p)). rewrite digits2_pos_size.
  pose proof (Pos.size_le p) as H. apply Pos2Z.pos_le_pos in H.
  rewrite Pos2Z.inj_pow in H. rewrite (Pos2Z.inj_xO p) in H.
  remember (Z.pos (Pos.size p)) as d eqn:Ed.
  assert (Hd : 0 < d) by lia.
  replace d with (Z.succ (d - 1)) in H by lia.
  rewrite Z.pow_succ_r in H by lia. lia.
Qed.

Lemma shr_1_m (mrs : shr_record) :
  0 <= shr_m mrs -> shr_m (shr_1 mrs) = Z.div2 (shr_m mrs).
Proof.
  destruct mrs as [m r s]; simpl.
  destruct m as [|[p|p|]|p]; simpl; intros; try reflexivity; lia.
Qed.

Lemma iter_shr_1_m (n : positive) (mrs : shr_record) :
  0 <= shr_m mrs ->
  shr_m (iter_pos shr_1 n mrs) = Z.shiftr (shr_m mrs) (Z.pos n).
Proof.
  revert mrs.
  assert (Hnn : forall mrs, 0 <= shr_m mrs -> 0 <= shr_m (shr_1 mrs)).
  { intros mrs H. rewrite shr_1_m by assumption. rewrite Z.div2_div.
    apply Z.div_pos; lia. }
  induction n as [n IH|n IH|]; intros mrs H; simpl.
  - rewrite IH, IH, shr_1_m by (try rewrite IH; try apply Z.shiftr_nonneg; auto).
    rewrite Z.shiftr_shiftr by lia. rewrite Z.div2_spec, Z.shiftr_shiftr by lia.
    f_equal; lia.
  - rewrite IH, IH by (try rewrite IH; try apply Z.shiftr_nonneg; auto).
    rewrite Z.shiftr_shiftr by lia. f_equal; lia.
  - rewrite shr_1_m by assumption. now rewrite Z.div2_spec.
Qed.

(** Away from the subnormal range a shift keeps the leading [prec] bits. *)
Lemma shr_fexp_pos (m e : Z) (l : location) :
  0 < m -> -1000 <= e ->
  0 < shr_m (fst (shr_fexp prec emax m e l)) /\ e <= snd (shr_fexp prec emax m e l).
Proof.
  intros Hm He. unfold shr_fexp, shr.
  pose proof (Zdigits2_pow m Hm) as Hd.
  assert (Hdp : 0 < Zdigits2 m) by (destruct m; simpl in *; lia).
  assert (Hf : fexp prec emax (Zdigits2 m + e) - e = Zdigits2 m - prec).
  { unfold fexp, emin, prec, emax. lia. }
  rewrite Hf.
  assert (Hrec : shr_m (shr_record_of_loc m l) = m) by (destruct l as [|[]]; reflexivity).
  destruct (Zdigits2 m - prec) as [|n|n] eqn:En; simpl; rewrite ?Hrec; try lia.
  rewrite iter_shr_1_m by (rewrite Hrec; lia). rewrite Hrec. split; [|lia].
  rewrite Z.shiftr_div_pow2 by lia.
  apply Z.div_str_pos. split; [lia|].
  apply Z.le_trans with (2 ^ (Zdigits2 m - 1)); [|assumption].
  apply Z.pow_le_mono_r; unfold prec in *; lia.
Qed.

Lemma round_nearest_even_ge (m : Z) (l : location) : m <= round_nearest_even m l.
Proof. destruct l as [|[]]; simpl; try lia. destruct (Z.even m); lia. Qed.

Lemma binary_round_aux_pos (sx : bool) (m e : Z) (l : location) :
  0 < m -> -1000 <= e ->
  match binary_round_aux prec emax sx m e l with
  | S754_finite s _ _ | S754_infinity s => s = sx
  | _ => False
  end.
Proof.
  intros Hm He. unfold binary_round_aux.
  destruct (shr_fexp_pos m e l Hm He) as [H1 H2].
  destruct (shr_fexp prec emax m e l) as [mrs' e']. simpl in H1, H2.
  pose proof (round_nearest_even_ge (shr_m mrs') (loc_of_shr_record mrs')) as Hr.
  destruct (shr_fexp_pos (round_nearest_even (shr_m mrs') (loc_of_shr_record mrs'))
              e' loc_Exact) as [H3 H4]; try lia.
  destruct (shr_fexp prec emax _ e' loc_Exact) as [mrs'' e'']. simpl in H3.
  destruct (shr_m mrs''); try lia. destruct (e'' <=? emax - prec); reflexivity.
Qed.

(** The conversion of a positive [int] is a positive number. *)
Lemma float64_of_int_pos (z : Z) :
  0 < z < 2 ^ 63 ->
  match Prim2SF (float64_of_int z) with
  | S754_finite s _ _ | S754_infinity s => s = false
  | _ => False
  end.
Proof.
  intros Hz. unfold float64_of_int. rewrite of_uint63_spec.
  rewrite Uint63.of_Z_spec.
  rewrite Z.mod_small by (change Uint63.wB with (2 ^ 63); lia).
  destruct z as [|p|p]; try lia. unfold binary_normalize, binary_round.
  destruct (shl_align p 0 _) as [mz ez] eqn:E.
  apply binary_round_aux_pos; [lia|].
  unfold shl_align in E. unfold fexp, emin, prec, emax in E.
  remember (Z.max (Z.pos (digits2_pos p) + 0 - 53) (3 - 1024 - 53)) as mx eqn:Emx.
  assert (-52 <= mx) by (subst mx; etransitivity; [|apply Z.le_max_l]; lia).
  clear Emx. destruct (mx - 0) eqn:E2; inversion E; subst; lia.
Qed.

Lemma one_minus_zero_over (z : Z) :
  0 < z < 2 ^ 63 ->
  (1 - float64_of_int 0 / float64_of_int z)%float = 1%float.
Proof.
  intros Hz. pose proof (float64_of_int_pos z Hz) as H.
  assert (E : (float64_of_int 0 / float64_of_int z)%float = 0%float).
  { apply Prim2SF_inj. rewrite FloatAxioms.div_spec.
    destruct (Prim2SF (float64_of_int z)) as [s|s| |s m e];
      try contradiction; subst; reflexivity. }
  rewrite E. reflexivity.
Qed.

Lemma SFleb_trans (x y z : spec_float) :
  SFleb x y = true -> SFleb y z = true -> SFleb x z = true.
Proof.
  unfold SFleb, SFcompare.
  destruct x as [sx|sx| |sx mx ex], y as [sy|sy| |sy my ey], z as [sz|sz| |sz mz ez];
    try destruct sx; try destruct sy; try destruct sz; try (intros; easy).
  all: destruct (Z.compare_spec ex ey), (Z.compare_spec ey ez), (Z.compare_spec ex ez);
    try (intros; easy); try lia; subst.
  all: rewrite ?Pos.compare_cont_spec; unfold Pos.switch_Eq;
    destruct (Pos.compare_spec mx my), (Pos.compare_spec my mz), (Pos.compare_spec mx mz);
    simpl; try (intros; easy); lia.
Qed.

Lemma float_leb_trans (x y z : float) :
  (x <=? y)%float = true -> (y <=? z)%float = true -> (x <=? z)%float = true.
Proof. rewrite !FloatAxioms.leb_spec. apply SFleb_trans. Qed.
End Binary64.

Lemma similarity_same (a : string) : len a < 2 ^ 63 -> similarity a a = 1%float.
Proof.
  intros Ha. unfold similarity.
  destruct (len a =? 0) eqn:E; simpl; [reflexivity|].
  apply Z.eqb_neq in E. pose proof (len_nonneg a).
  rewrite ComputeDistance_same, Z.max_id.
  apply one_minus_zero_over. lia.
Qed.

Lemma flat_map_all_nil {A B : Type} (f : A -> list B) (l : list A) :
  (forall x, In x l -> f x = []) -> flat_map f l = [].
Proof.
  induction l as [|x l IH]; intros H; simpl; [reflexivity|].
  rewrite (H x) by now left. apply IH. intros y Hy. apply H. now right.
Qed.

(** ** The search loop *)

Section Loop.
Variables (lines : list string) (diff : Diff) (threshold : float).
Variables (nSearch startIdx : Z).
Let nLines := Z.of_nat (List.length lines).
Hypothesis HnSearch : 1 <= nSearch.
Hypothesis HstartIdx : 0 <= startIdx <= nLines - 1.

Lemma try_candidate_in_range (at_ : Z) :
  0 <= at_ -> at_ + nSearch <= nLines ->
  try_candidate lines (build_offsets 0 lines) diff threshold nSearch at_ =
  Ret (if acceptable lines diff threshold nSearch at_
       then Some (edit_at lines diff nSearch at_) else None).
Proof.
  intros H0 H1. unfold try_candidate, acceptable, chunk_at, edit_at.
  rewrite slice_in_range by (fold nLines; lia). simpl.
  replace (at_ + nSearch - at_) with nSearch by lia.
  destruct (_ <=? _)%float; [|reflexivity].
  rewrite !index_offsets by (fold nLines; lia). reflexivity.
Qed.

Lemma tried_radius_small (radius : Z) :
  0 <= radius ->
  above_in_range nLines nSearch startIdx radius
  || below_in_range nLines nSearch startIdx radius = true ->
  radius <= nLines - 1.
Proof.
  unfold above_in_range, below_in_range. intros Hr H.
  apply orb_true_iff in H. rewrite !andb_true_iff in H.
  rewrite !Z.leb_le, Z.ltb_lt in H. lia.
Qed.

Lemma search_loop_examined (fuel : nat) (radius : Z) :
  0 <= radius -> (0 < fuel)%nat -> nLines < Z.of_nat fuel + radius ->
  search_loop fuel lines (build_offsets 0 lines) diff threshold nSearch startIdx radius =
  Ret (first_acceptable lines diff threshold nSearch
         (examined fuel nLines nSearch startIdx radius)).
Proof.
  revert radius. induction fuel as [|fuel IH]; intros radius Hr Hf Hn; [lia|].
  cbn [search_loop examined]. fold nLines.
  pose proof (tried_radius_small radius Hr) as Hsmall.
  unfold first_acceptable.
  destruct (above_in_range nLines nSearch startIdx radius) eqn:Ea;
    destruct (below_in_range nLines nSearch startIdx radius) eqn:Eb; cbn [orb negb app] in *.
  - unfold above_in_range in Ea. unfold below_in_range in Eb.
    apply andb_true_iff in Ea, Eb. rewrite !Z.leb_le in Ea. rewrite Z.ltb_lt, Z.leb_le in Eb.
    rewrite try_candidate_in_range by lia. cbn [bind find].
    destruct (acceptable lines diff threshold nSearch (startIdx - radius)); [reflexivity|].
    rewrite try_candidate_in_range by lia. cbn [bind find].
    destruct (acceptable lines diff threshold nSearch (startIdx + radius)); [reflexivity|].
    apply IH; lia.
  - unfold above_in_range in Ea.
    apply andb_true_iff in Ea. rewrite !Z.leb_le in Ea.
    rewrite try_candidate_in_range by lia. cbn [bind find].
    destruct (acceptable lines diff threshold nSearch (startIdx - radius)); [reflexivity|].
    apply IH; lia.
  - unfold below_in_range in Eb.
    apply andb_true_iff in Eb. rewrite Z.ltb_lt, Z.leb_le in Eb.
    cbn [bind]. rewrite try_candidate_in_range by lia. cbn [bind find].
    destruct (acceptable lines diff threshold nSearch (startIdx + radius)); [reflexivity|].
    apply IH; lia.
  - reflexivity.
Qed.

Lemma examined_in_range (fuel : nat) (radius at_ : Z) :
  0 <= radius ->
  In at_ (examined fuel nLines nSearch startIdx radius) ->
  0 <= at_ /\ at_ + nSearch <= nLines.
Proof.
  revert radius. induction fuel as [|fuel IH]; intros radius Hr Hin; [contradiction|].
  cbn [examined] in Hin.
  destruct (above_in_range nLines nSearch startIdx radius) eqn:Ea;
    destruct (below_in_range nLines nSearch startIdx radius) eqn:Eb;
    cbn [orb app] in Hin; try contradiction.
  all: unfold above_in_range in Ea; unfold below_in_range in Eb;
    rewrite ?andb_true_iff, ?Z.leb_le, ?Z.ltb_lt in Ea, Eb.
  all: repeat (destruct Hin as [<-|Hin]; [lia|]).
  all: apply (IH (radius + 1)); [lia|assumption].
Qed.

Let at_radius (r : Z) : list Z :=
  (if above_in_range nLines nSearch startIdx r then [startIdx - r] else [])
  ++ (if below_in_range nLines nSearch startIdx r then [startIdx + r] else []).

Lemma no_candidate_beyond (r r' : Z) :
  startIdx + nSearch <= nLines -> 0 <= r <= r' ->
  above_in_range nLines nSearch startIdx r
  || below_in_range nLines nSearch startIdx r = false ->
  above_in_range nLines nSearch startIdx r'
  || below_in_range nLines nSearch startIdx r' = false.
Proof.
  unfold above_in_range, below_in_range. intros Hroom Hr H.
  apply orb_false_iff in H. rewrite !andb_false_iff in H.
  rewrite !Z.leb_gt, Z.ltb_ge in H.
  apply orb_false_iff. rewrite !andb_false_iff, !Z.leb_gt, Z.ltb_ge. lia.
Qed.

(** When the hinted line leaves room for the search lines, the radii that
    have a candidate form an initial segment: the loop misses none. *)
Lemma examined_is_flat_map (fuel : nat) (radius : nat) :
  startIdx + nSearch <= nLines ->
  examined fuel nLines nSearch startIdx (Z.of_nat radius) =
  flat_map at_radius (map Z.of_nat (seq radius fuel)).
Proof.
  intros Hroom. revert radius. induction fuel as [|fuel IH]; intros radius; [reflexivity|].
  cbn [examined seq map flat_map].
  replace (Z.of_nat radius + 1) with (Z.of_nat (S radius)) by lia.
  rewrite IH. unfold at_radius at 2.
  destruct (above_in_range nLines nSearch startIdx (Z.of_nat radius)
            || below_in_range nLines nSearch startIdx (Z.of_nat radius)) eqn:E.
  - now rewrite <- app_assoc.
  - pose proof E as E'. apply orb_false_iff in E' as [-> ->]. cbn [app].
    symmetry. apply flat_map_all_nil. intros r Hin.
    apply in_map_iff in Hin as (k & <- & Hk). apply in_seq in Hk.
    pose proof (no_candidate_beyond (Z.of_nat radius) (Z.of_nat k) Hroom
                  ltac:(lia) E) as E2.
    unfold at_radius. apply orb_false_iff in E2 as [-> ->]. reflexivity.
Qed.

Lemma examined_no_room (fuel : nat) :
  nLines < startIdx + nSearch -> examined fuel nLines nSearch startIdx 0 = [].
Proof.
  intros Hroom. destruct fuel as [|fuel]; [reflexivity|]. cbn [examined].
  replace (above_in_range nLines nSearch startIdx 0) with false.
  - reflexivity.
  - symmetry. unfold above_in_range. apply andb_false_iff. right.
    apply Z.leb_gt. lia.
Qed.

Lemma examined_all_in_range :
  startIdx + nSearch <= nLines ->
  examined (S (Z.to_nat nLines)) nLines nSearch startIdx 0 =
  all_in_range_candidates nLines nSearch startIdx.
Proof. intros Hroom. apply (examined_is_flat_map _ O Hroom). Qed.
End Loop.

Lemma clamp_hint_range (line nLines : Z) :
  1 <= nLines -> 0 <= clamp_hint line nLines <= nLines - 1.
Proof. unfold clamp_hint. lia. Qed.

Lemma wrap_int_small (z : Z) : minInt <= z <= maxInt -> wrap_int z = z.
Proof.
  unfold minInt, maxInt, wrap_int. intros H.
  rewrite Z.mod_small by lia. lia.
Qed.

Lemma wrap_int_below : wrap_int (minInt - 1) = maxInt.
Proof. reflexivity. Qed.

(** [Search] in closed form: its guards, then the first acceptable candidate
    of the radius order. *)
Lemma Search_unfold (source : string) (diff : Diff) (threshold : float) :
  let lines := trimSplit source in
  let nLines := Z.of_nat (List.length lines) in
  let nSearch := Z.of_nat (List.length (trimSplit (Diff_Search diff))) in
  let startIdx := clamp_hint (Diff_Line diff) nLines in
  Search source diff threshold =
  Ret (if (nSearch =? 0) || (nLines <? startIdx + nSearch) then (zero_Edit, false)
       else first_acceptable lines diff threshold nSearch
              (all_in_range_candidates nLines nSearch startIdx)).
Proof.
  intros lines nLines nSearch startIdx. unfold Search.
  fold lines. fold nLines. fold nSearch. fold startIdx.
  destruct (nLines =? 0) eqn:E0.
  - apply Z.eqb_eq in E0.
    destruct (nSearch =? 0) eqn:E1; cbn [orb]; [reflexivity|].
    apply Z.eqb_neq in E1.
    replace (nLines <? startIdx + nSearch) with true; [reflexivity|].
    symmetry. apply Z.ltb_lt. unfold startIdx, clamp_hint. lia.
  - apply Z.eqb_neq in E0.
    assert (Hn : 1 <= nLines) by (unfold nLines in *; lia).
    pose proof (clamp_hint_range (Diff_Line diff) nLines Hn) as Hs. fold startIdx in Hs.
    destruct (nSearch =? 0) eqn:E1; cbn [orb]; [reflexivity|].
    apply Z.eqb_neq in E1.
    assert (Hk : 1 <= nSearch) by (unfold nSearch in *; lia).
    destruct (nSearch >? nLines) eqn:E2.
    + rewrite Z.gtb_ltb in E2. apply Z.ltb_lt in E2.
      replace (nLines <? startIdx + nSearch) with true; [reflexivity|].
      symmetry. apply Z.ltb_lt. lia.
    + rewrite search_loop_examined by (fold nLines; lia).
      fold nLines. f_equal.
      destruct (nLines <? startIdx + nSearch) eqn:E3.
      * apply Z.ltb_lt in E3. unfold nLines in E3 |- *.
        now rewrite examined_no_room by lia.
      * apply Z.ltb_ge in E3. unfold nLines at 1.
        rewrite <- (Nat2Z.id (List.length lines)) at 1. fold nLines.
        unfold nLines in *. now rewrite examined_all_in_range by lia.
Qed.

Lemma all_in_range_candidates_in (nLines nSearch startIdx at_ : Z) :
  0 <= startIdx ->
  In at_ (all_in_range_candidates nLines nSearch startIdx) ->
  0 <= at_ /\ at_ + nSearch <= nLines.
Proof.
  unfold all_in_range_candidates. intros H0 H.
  apply in_flat_map in H as (r & Hr & H).
  apply in_map_iff in Hr as (k & <- & _).
  unfold above_in_range, below_in_range in H.
  apply in_app_iff in H as [H|H].
  - destruct (_ && _) eqn:E in H; [|contradiction].
    apply andb_true_iff in E. rewrite !Z.leb_le in E. destruct H as [<-|[]]. lia.
  - destruct (_ && _) eqn:E in H; [|contradiction].
    apply andb_true_iff in E. rewrite Z.ltb_lt, Z.leb_le in E. destruct H as [<-|[]]. lia.
Qed.

Lemma all_in_range_candidates_head (nLines nSearch startIdx : Z) :
  0 <= startIdx -> startIdx + nSearch <= nLines ->
  exists rest, all_in_range_candidates nLines nSearch startIdx = startIdx :: rest.
Proof.
  intros H0 H1. unfold all_in_range_candidates. cbn [seq map flat_map].
  replace (above_in_range nLines nSearch startIdx (Z.of_nat 0)) with true.
  - replace (startIdx - Z.of_nat 0) with startIdx by lia. cbn [app]. eauto.
  - symmetry. unfold above_in_range. apply andb_true_iff. rewrite !Z.leb_le. lia.
Qed.

Lemma find_earlier {A : Type} (f g : A -> bool) (l : list A) (x : A) :
  (forall a, f a = true -> g a = true) ->
  find f l = Some x ->
  exists i j y,
    nth_error l i = Some x /\ nth_error l j = Some y /\ (j <= i)%nat /\ find g l = Some y.
Proof.
  intros Hfg. induction l as [|a l IH]; intros H; [discriminate|].
  cbn [find] in *. destruct (f a) eqn:Ef.
  - injection H as <-. exists O, O, a. rewrite (Hfg a Ef). repeat split; auto.
  - destruct (g a) eqn:Eg.
    + destruct (IH H) as (i & _ & _ & Hi & _).
      exists (S i), O, a. repeat split; auto. lia.
    + destruct (IH H) as (i & j & y & Hi & Hj & Hij & Hy).
      exists (S i), (S j), y. repeat split; auto. lia.
Qed.

(** ** Sorting the edits *)

Lemma move_left_perm (e : Edit) (before : list Edit) :
  Permutation (move_left e before) (e :: before).
Proof.
  induction before as [|prev before IH]; simpl; [reflexivity|].
  destruct (Edit_Start e >? Edit_Start prev); [|reflexivity].
  rewrite IH. apply perm_swap.
Qed.

Lemma move_left_sorted (e : Edit) (before : list Edit) :
  StronglySorted start_le before -> StronglySorted start_le (move_left e before).
Proof.
  induction 1 as [|prev before Hs IH Hall]; simpl.
  - repeat constructor.
  - destruct (Edit_Start e >? Edit_Start prev) eqn:E.
    + rewrite Z.gtb_ltb in E. apply Z.ltb_lt in E. constructor; [assumption|].
      rewrite (move_left_perm e before). constructor; [unfold start_le; lia|assumption].
    + rewrite Z.gtb_ltb in E. apply Z.ltb_ge in E.
      constructor; [now constructor|].
      constructor; [assumption|].
      eapply Forall_impl; [|exact Hall]. unfold start_le. intros; lia.
Qed.

Lemma insertion_fold_perm (edits before : list Edit) :
  Permutation (fold_left (fun before e => move_left e before) edits before)
              (edits ++ before).
Proof.
  revert before. induction edits as [|e edits IH]; intros before; simpl; [reflexivity|].
  rewrite IH, move_left_perm. symmetry. apply Permutation_middle.
Qed.

Lemma insertion_fold_sorted (edits before : list Edit) :
  StronglySorted start_le before ->
  StronglySorted start_le (fold_left (fun before e => move_left e before) edits before).
Proof.
  revert before. induction edits as [|e edits IH]; intros before H; simpl; [assumption|].
  apply IH, move_left_sorted, H.
Qed.

Lemma sort_Slice_perm (edits : list Edit) : Permutation (sort_Slice edits) edits.
Proof.
  unfold sort_Slice. rewrite <- Permutation_rev, insertion_fold_perm.
  now rewrite app_nil_r.
Qed.

Lemma sorted_distinct_strict (l : list Edit) :
  StronglySorted start_le l -> NoDup (map Edit_Start l) -> StronglySorted start_lt l.
Proof.
  induction 1 as [|a l Hs IH Hall]; intros Hnd; [constructor|].
  simpl in Hnd. inversion Hnd as [|? ? Hnotin Hnd']; subst.
  constructor; [auto|].
  rewrite Forall_forall in *. intros b Hb. pose proof (Hall b Hb) as Hle.
  unfold start_le, start_lt in *.
  assert (Edit_Start a <> Edit_Start b).
  { intros E. apply Hnotin. rewrite E. now apply in_map. }
  lia.
Qed.

(** A list in strict order of [Start] is determined by its elements. *)
Lemma strict_sorted_unique (l1 l2 : list Edit) :
  StronglySorted start_lt l1 -> StronglySorted start_lt l2 ->
  Permutation l1 l2 -> l1 = l2.
Proof.
  intros H1. revert l2. induction H1 as [|a l1 Hs1 IH Hall1]; intros l2 H2 Hp.
  - apply Permutation_nil in Hp. now subst.
  - destruct l2 as [|b l2]; [apply Permutation_sym, Permutation_nil in Hp; discriminate|].
    inversion H2 as [|? ? Hs2 Hall2]; subst.
    assert (a = b) as <-.
    { assert (Ha : In a (b :: l2)) by (eapply Permutation_in; [exact Hp|now left]).
      assert (Hb : In b (a :: l1))
        by (eapply Permutation_in; [apply Permutation_sym; exact Hp|now left]).
      destruct Ha as [Ha|Ha]; [now subst|]. destruct Hb as [Hb|Hb]; [now subst|].
      rewrite Forall_forall in Hall1, Hall2.
      pose proof (Hall1 b Hb). pose proof (Hall2 a Ha). unfold start_lt in *. lia. }
    f_equal. apply IH; [assumption|]. eapply Permutation_cons_inv, Hp.
Qed.

Lemma StronglySorted_app {A : Type} (R : A -> A -> Prop) (l1 l2 : list A) :
  StronglySorted R l1 -> StronglySorted R l2 ->
  (forall x y, In x l1 -> In y l2 -> R x y) ->
  StronglySorted R (l1 ++ l2).
Proof.
  induction 1 as [|a l1 Hs IH Hall]; intros H2 Hx; simpl; [assumption|].
  constructor.
  - apply IH; [assumption|]. intros x y Hi Hj. apply Hx; [now right|assumption].
  - apply Forall_app. split; [assumption|].
    apply Forall_forall. intros y Hy. apply Hx; [now left|assumption].
Qed.

Lemma StronglySorted_rev {A : Type} (R : A -> A -> Prop) (l : list A) :
  StronglySorted R l -> StronglySorted (fun a b => R b a) (rev l).
Proof.
  induction 1 as [|a l Hs IH Hall]; simpl; [constructor|].
  apply StronglySorted_app; [assumption|repeat constructor|].
  intros x y Hx [<-|[]]. rewrite Forall_forall in Hall. apply Hall.
  now apply in_rev.
Qed.

(** The result of the sort is in descending order of [Start]. *)
Lemma sort_Slice_sorted (edits : list Edit) :
  StronglySorted (fun a b => Edit_Start b <= Edit_Start a) (sort_Slice edits).
Proof.
  unfold sort_Slice. apply (StronglySorted_rev start_le).
  apply insertion_fold_sorted. constructor.
Qed.

(** With pairwise distinct [Start]s there is one descending permutation:
    every sorting procedure returns what [sort_Slice] returns. *)
Lemma sorted_permutation_unique (edits sorted : list Edit) :
  NoDup (map Edit_Start edits) ->
  Permutation sorted edits ->
  StronglySorted (fun a b => Edit_Start b <= Edit_Start a) sorted ->
  sorted = sort_Slice edits.
Proof.
  intros Hnd Hp Hs.
  rewrite <- (rev_involutive sorted), <- (rev_involutive (sort_Slice edits)).
  f_equal. apply strict_sorted_unique.
  - apply sorted_distinct_strict.
    + apply (StronglySorted_rev _ _ Hs).
    + eapply Permutation_NoDup; [|exact Hnd].
      apply Permutation_map. rewrite <- Permutation_rev. now symmetry.
  - apply sorted_distinct_strict.
    + apply (StronglySorted_rev _ _ (sort_Slice_sorted edits)).
    + eapply Permutation_NoDup; [|exact Hnd].
      apply Permutation_map. rewrite <- Permutation_rev. symmetry. apply sort_Slice_perm.
  - rewrite <- !Permutation_rev. rewrite Hp. symmetry. apply sort_Slice_perm.
Qed.

Lemma sort_Slice_permutation_invariant (l l' : list Edit) :
  NoDup (map Edit_Start l) -> Permutation l l' -> sort_Slice l = sort_Slice l'.
Proof.
  intros Hnd Hp. symmetry. apply sorted_permutation_unique.
  - exact Hnd.
  - rewrite sort_Slice_perm. now symmetry.
  - apply sort_Slice_sorted.
Qed.

Lemma sort_Slice_pair (a b : Edit) :
  sort_Slice [a; b] = [applied_first a b; applied_second a b].
Proof.
  unfold sort_Slice, applied_first, applied_second. simpl.
  destruct (Edit_Start b >? Edit_Start a); reflexivity.
Qed.

(** ** Taking and dropping bytes *)

Lemma length_take (n : nat) (s : string) :
  String.length (take n s) = Nat.min n (String.length s).
Proof.
  revert s. induction n as [|n IH]; intros [|c s]; simpl; try reflexivity.
  now rewrite IH.
Qed.

Lemma length_drop (n : nat) (s : string) :
  String.length (drop n s) = (String.length s - n)%nat.
Proof.
  revert s. induction n as [|n IH]; intros [|c s]; simpl; try reflexivity; try lia.
  apply IH.
Qed.

Lemma take_drop (n : nat) (s : string) : String.append (take n s) (drop n s) = s.
Proof.
  revert s. induction n as [|n IH]; intros [|c s]; simpl; try reflexivity.
  now rewrite IH.
Qed.

Lemma take_app (n : nat) (a b : string) :
  (n <= String.length a)%nat -> take n (String.append a b) = take n a.
Proof.
  revert a. induction n as [|n IH]; intros [|c a] H; simpl in *;
    try reflexivity; try lia; try (now destruct b).
  rewrite IH by lia. reflexivity.
Qed.

Lemma drop_app (n : nat) (a b : string) :
  (n <= String.length a)%nat -> drop n (String.append a b) = String.append (drop n a) b.
Proof.
  revert a. induction n as [|n IH]; intros [|c a] H; simpl in *; try reflexivity; try lia.
  apply IH. lia.
Qed.

Lemma take_take (n m : nat) (s : string) :
  (n <= m)%nat -> take n (take m s) = take n s.
Proof.
  revert m s. induction n as [|n IH]; intros [|m] [|c s] H; simpl; try reflexivity; try lia.
  rewrite IH by lia. reflexivity.
Qed.

Lemma drop_take (n m : nat) (s : string) :
  (n <= m)%nat -> drop n (take m s) = take (m - n) (drop n s).
Proof.
  revert m s. induction n as [|n IH]; intros [|m] [|c s] H; simpl;
    try reflexivity; try lia; try (now destruct (m - n)%nat).
  apply IH. lia.
Qed.

Lemma take_add (n m : nat) (s : string) :
  take (n + m) s = String.append (take n s) (take m (drop n s)).
Proof.
  revert s. induction n as [|n IH]; intros [|c s]; simpl;
    try reflexivity; try (now destruct m).
  now rewrite IH.
Qed.

Lemma take_all (n : nat) (s : string) : (String.length s <= n)%nat -> take n s = s.
Proof.
  revert s. induction n as [|n IH]; intros [|c s] H; simpl in *; try reflexivity; try lia.
  rewrite IH by lia. reflexivity.
Qed.

Lemma len_take (k : Z) (s : string) :
  0 <= k <= len s -> len (take (Z.to_nat k) s) = k.
Proof. unfold len. intros H. rewrite length_take. lia. Qed.

Lemma take_segment (s : string) (pos upto : Z) :
  0 <= pos <= upto ->
  String.append (take (Z.to_nat pos) s) (segment s pos upto) = take (Z.to_nat upto) s.
Proof.
  intros H. unfold segment.
  replace (Z.to_nat upto) with (Z.to_nat pos + Z.to_nat (upto - pos))%nat by lia.
  now rewrite take_add.
Qed.

Lemma segment_to_end (s : string) (pos : Z) :
  segment s pos (len s) = drop (Z.to_nat pos) s.
Proof.
  unfold segment, len. apply take_all. rewrite length_drop. lia.
Qed.

Lemma len_splice (data : string) (e : Edit) :
  invalid_range data e = false ->
  len (splice data e) = len data + (len (Edit_Text e) - (Edit_End e - Edit_Start e)).
Proof.
  unfold invalid_range. intros H.
  apply orb_false_iff in H as [H H3]. apply orb_false_iff in H as [H1 H2].
  apply Z.ltb_ge in H1, H2. rewrite Z.gtb_ltb in H3. apply Z.ltb_ge in H3.
  unfold splice. rewrite !len_append. unfold len in *.
  rewrite length_take, length_drop. lia.
Qed.

(** ** Splicing back to front *)

Lemma ascending_chain_snoc (pos : Z) (edits : list Edit) (e : Edit) (upto : Z) :
  ascending_chain pos (edits ++ [e]) upto
  <-> ascending_chain pos edits (Edit_Start e) /\ Edit_Start e <= Edit_End e <= upto.
Proof.
  revert pos. induction edits as [|x edits IH]; intros pos; simpl.
  - lia.
  - rewrite IH. tauto.
Qed.

Lemma ascending_chain_from (pos : Z) (edits : list Edit) (upto : Z) :
  ascending_chain pos edits upto ->
  pos <= upto /\ Forall (fun e => pos <= Edit_Start e) edits.
Proof.
  revert pos. induction edits as [|x edits IH]; intros pos H; simpl in *.
  - split; [assumption|constructor].
  - destruct H as [H1 H2]. destruct (IH _ H2) as [H3 H4]. split; [lia|].
    constructor; [lia|]. eapply Forall_impl; [|exact H4]. simpl. intros; lia.
Qed.

Lemma ascending_chain_sorted (pos : Z) (edits : list Edit) (upto : Z) :
  ascending_chain pos edits upto -> StronglySorted start_le edits.
Proof.
  revert pos. induction edits as [|x edits IH]; intros pos H; [constructor|].
  destruct H as [H1 H2]. constructor; [eapply IH, H2|].
  destruct (ascending_chain_from _ _ _ H2) as [_ H3].
  eapply Forall_impl; [|exact H3]. unfold start_le. simpl. intros; lia.
Qed.

Lemma patched_between_snoc (source : string) (pos : Z) (edits : list Edit) (e : Edit)
    (upto : Z) :
  patched_between source pos (edits ++ [e]) upto
  = String.append (patched_between source pos edits (Edit_Start e))
      (String.append (Edit_Text e) (segment source (Edit_End e) upto)).
Proof.
  revert pos. induction edits as [|x edits IH]; intros pos; simpl; [reflexivity|].
  now rewrite IH, !append_assoc.
Qed.

(** The loop on a chain, last edit first: the bytes before [lastEnd] are
    still those of the source, what is behind has been rebuilt. *)
Lemma apply_loop_chain (source : string) (edits : list Edit) :
  forall (pos lastEnd : Z) (tail : string),
    0 <= pos -> lastEnd <= len source ->
    ascending_chain pos edits lastEnd ->
    apply_loop (rev edits) (String.append (take (Z.to_nat lastEnd) source) tail) lastEnd
    = (String.append (take (Z.to_nat pos) source)
         (String.append (patched_between source pos edits lastEnd) tail), None).
Proof.
  induction edits as [|e edits IH] using rev_ind; intros pos lastEnd tail Hpos Hlast Hchain.
  - simpl in *. now rewrite <- append_assoc, take_segment by lia.
  - apply ascending_chain_snoc in Hchain as [Hchain He].
    destruct (ascending_chain_from _ _ _ Hchain) as [Hps _].
    rewrite rev_app_distr. cbn [rev app apply_loop].
    set (data := String.append (take (Z.to_nat lastEnd) source) tail).
    assert (Hlen : len data = lastEnd + len tail).
    { unfold data. rewrite len_append, len_take by lia. reflexivity. }
    pose proof (len_nonneg tail) as Htail.
    replace (invalid_range data e) with false.
    2:{ symmetry. unfold invalid_range. rewrite !orb_false_iff.
        rewrite Z.gtb_ltb, !Z.ltb_ge. lia. }
    replace (Edit_End e >? lastEnd) with false
      by (symmetry; rewrite Z.gtb_ltb; apply Z.ltb_ge; lia).
    assert (Hsplice : splice data e
              = String.append (take (Z.to_nat (Edit_Start e)) source)
                  (String.append (Edit_Text e)
                     (String.append (segment source (Edit_End e) lastEnd) tail))).
    { unfold splice, data.
      assert (Hl : String.length (take (Z.to_nat lastEnd) source) = Z.to_nat lastEnd)
        by (rewrite length_take; unfold len in Hlast; lia).
      rewrite take_app, take_take by lia.
      rewrite drop_app, drop_take by lia.
      unfold segment. repeat f_equal. lia. }
    rewrite Hsplice, (IH pos (Edit_Start e)) by (try assumption; lia).
    rewrite patched_between_snoc, !append_assoc. reflexivity.
Qed.

(** * The applier: specified behaviour *)

(** C9. With an empty edit list [Apply] returns the document unchanged and
    no error. *)
Theorem Apply_no_edits (source : string) : Apply source [] = (source, None).
Proof. reflexivity. Qed.

(** C2, as stated, fails: these two edits intersect in byte 1, and [Apply]
    reports an invalid range, not an overlap. *)
Lemma Apply_intersecting_pair_not_overlap_error :
  ranges_intersect (mkEdit 0 5 "") (mkEdit 1 2 "")
  /\ Apply "abc" [mkEdit 0 5 ""; mkEdit 1 2 ""] = (no_text, Some (ErrInvalidRange 0 5))
  /\ forall s e, Apply "abc" [mkEdit 0 5 ""; mkEdit 1 2 ""] <> (no_text, Some (ErrOverlap s e)).
Proof.
  split; [unfold ranges_intersect; simpl; lia|].
  split; [reflexivity|]. intros s e. vm_compute. discriminate.
Qed.

(** The range check of [Apply] is made against the buffer as it is at that
    turn, not against the document: once an edit has shortened the buffer,
    an edit that lies within the document can be out of range. *)
Lemma Apply_range_check_on_shortened_buffer :
  in_bounds "abcdef" (mkEdit 2 6 "")
  /\ in_bounds "abcdef" (mkEdit 1 5 "x")
  /\ ranges_intersect (mkEdit 2 6 "") (mkEdit 1 5 "x")
  /\ ~ ends_within_after "abcdef" (mkEdit 2 6 "") (mkEdit 1 5 "x")
  /\ Apply "abcdef" [mkEdit 2 6 ""; mkEdit 1 5 "x"] = (no_text, Some (ErrInvalidRange 1 5)).
Proof.
  unfold in_bounds, ranges_intersect, ends_within_after, len. simpl.
  repeat split; try lia.
Qed.

Lemma in_bounds_valid (source : string) (e : Edit) :
  in_bounds source e -> invalid_range source e = false.
Proof.
  unfold in_bounds, invalid_range. intros H.
  rewrite !orb_false_iff, Z.gtb_ltb, !Z.ltb_ge. lia.
Qed.

(** Two intersecting edits within the document, in the order given. *)
Lemma Apply_pair_in_document (source : string) (x y : Edit) :
  in_bounds source x -> in_bounds source y -> ranges_intersect x y ->
  (exists err, Apply source [x; y] = (no_text, Some err))
  /\ (ends_within_after source (applied_first x y) (applied_second x y) ->
      Apply source [x; y]
      = (no_text, Some (ErrOverlap (Edit_Start (applied_second x y))
                                   (Edit_End (applied_second x y))))).
Proof.
  intros Hx Hy Hxy. unfold Apply. cbn [List.length Nat2Z.inj_succ].
  change (Z.of_nat 2 =? 0) with false. cbv iota.
  rewrite sort_Slice_pair. cbn [apply_loop].
  set (f := applied_first x y). set (g := applied_second x y).
  assert (Hf : in_bounds source f)
    by (unfold f, applied_first; now destruct (Edit_Start y >? Edit_Start x)).
  assert (Hg : in_bounds source g)
    by (unfold g, applied_second; now destruct (Edit_Start y >? Edit_Start x)).
  assert (Hfg : Edit_Start g <= Edit_Start f /\ Edit_Start f < Edit_End g).
  { unfold ranges_intersect in Hxy. unfold f, g, applied_first, applied_second.
    destruct (Edit_Start y >? Edit_Start x) eqn:E; rewrite Z.gtb_ltb in E;
      [apply Z.ltb_lt in E|apply Z.ltb_ge in E]; lia. }
  pose proof (in_bounds_valid source f Hf) as Ef. rewrite Ef.
  replace (Edit_End f >? len source) with false
    by (symmetry; rewrite Z.gtb_ltb; apply Z.ltb_ge; unfold in_bounds in Hf; lia).
  replace (Edit_End g >? Edit_Start f) with true
    by (symmetry; rewrite Z.gtb_ltb; apply Z.ltb_lt; lia).
  destruct (invalid_range (splice source f) g) eqn:Eg.
  - split; [eauto|]. unfold ends_within_after. intros Hroom. exfalso.
    unfold invalid_range in Eg. rewrite (len_splice source f Ef) in Eg.
    rewrite !orb_true_iff, Z.gtb_ltb, !Z.ltb_lt in Eg.
    unfold in_bounds in Hg. lia.
  - split; [eauto|reflexivity].
Qed.

(** C2, amended. For two edits within the document whose ranges intersect,
    [Apply] returns an error and the empty string in place of a document, in
    both input orders. The error is the overlap error, citing the edit that
    is applied second, whenever that edit ends within the bytes that the
    buffer holds once the first one is spliced in. Which error it is for the
    other pairs is not stated. *)
Theorem Apply_intersecting_pair (source : string) (a b : Edit) :
  in_bounds source a -> in_bounds source b -> ranges_intersect a b ->
  ((exists err, Apply source [a; b] = (no_text, Some err))
   /\ (exists err, Apply source [b; a] = (no_text, Some err)))
  /\ (ends_within_after source (applied_first a b) (applied_second a b) ->
      Apply source [a; b]
      = (no_text, Some (ErrOverlap (Edit_Start (applied_second a b))
                                   (Edit_End (applied_second a b)))))
  /\ (ends_within_after source (applied_first b a) (applied_second b a) ->
      Apply source [b; a]
      = (no_text, Some (ErrOverlap (Edit_Start (applied_second b a))
                                   (Edit_End (applied_second b a))))).
Proof.
  intros Ha Hb Hab.
  assert (Hba : ranges_intersect b a) by (unfold ranges_intersect in *; lia).
  destruct (Apply_pair_in_document source a b Ha Hb Hab) as [E1 O1].
  destruct (Apply_pair_in_document source b a Hb Ha Hba) as [E2 O2].
  split; [split; assumption|]. split; assumption.
Qed.

Lemma Apply_intersecting_pair_witness :
  Apply "abcdef" [mkEdit 1 3 "x"; mkEdit 2 4 ""] = (no_text, Some (ErrOverlap 1 3))
  /\ Apply "abcdef" [mkEdit 2 4 ""; mkEdit 1 3 "x"] = (no_text, Some (ErrOverlap 1 3)).
Proof.
  assert (Ha : in_bounds "abcdef" (mkEdit 1 3 "x"))
    by (unfold in_bounds, len; simpl; lia).
  assert (Hb : in_bounds "abcdef" (mkEdit 2 4 ""))
    by (unfold in_bounds, len; simpl; lia).
  assert (H : ranges_intersect (mkEdit 1 3 "x") (mkEdit 2 4 ""))
    by (unfold ranges_intersect; simpl; lia).
  destruct (Apply_intersecting_pair "abcdef" (mkEdit 1 3 "x") (mkEdit 2 4 "") Ha Hb H)
    as (_ & O1 & O2).
  split.
  - apply O1. unfold ends_within_after, len. simpl. lia.
  - apply O2. unfold ends_within_after, len. simpl. lia.
Defined.

(** C3, as stated, fails in two ways. Two insertions at the same offset
    have disjoint (empty) ranges within the document, and the result depends
    on the order in which they are given. An insertion at an offset strictly
    inside the range of another edit shares no byte with it, and [Apply]
    returns an error and no document, in either order. *)
Lemma Apply_disjoint_edits_order_or_error :
  (let x := mkEdit 3 3 "x" in
   let y := mkEdit 3 3 "y" in
   Permutation [x; y] [y; x]
   /\ pairwise_disjoint [x; y]
   /\ Forall (in_bounds "abcde") [x; y]
   /\ Apply "abcde" [x; y] = ("abcyxde", None)
   /\ Apply "abcde" [y; x] = ("abcxyde", None)
   /\ Apply "abcde" [x; y] <> Apply "abcde" [y; x])
  /\ (let p := mkEdit 2 2 "x" in
      let q := mkEdit 1 3 "y" in
      pairwise_disjoint [p; q]
      /\ Forall (in_bounds "abcde") [p; q]
      /\ NoDup (map Edit_Start [p; q])
      /\ Apply "abcde" [p; q] = (no_text, Some (ErrOverlap 1 3))
      /\ Apply "abcde" [q; p] = (no_text, Some (ErrOverlap 1 3))).
Proof.
  cbv zeta. split.
  - split; [apply perm_swap|].
    split.
    { repeat constructor; unfold ranges_intersect; simpl; lia. }
    split.
    { repeat constructor; unfold len; simpl; lia. }
    split; [reflexivity|]. split; [reflexivity|].
    vm_compute. discriminate.
  - split.
    { repeat constructor; unfold ranges_intersect; simpl; lia. }
    split.
    { repeat constructor; unfold len; simpl; lia. }
    split.
    { repeat constructor; simpl; intuition lia. }
    split; reflexivity.
Qed.

Lemma ForallOrdPairs_perm {A : Type} (R : A -> A -> Prop) (l l' : list A) :
  (forall a b, R a b -> R b a) ->
  Permutation l l' -> ForallOrdPairs R l -> ForallOrdPairs R l'.
Proof.
  intros Hsym. induction 1 as [|x l l' Hp IH|x y l|l l' l'' _ IH1 _ IH2]; intros H.
  - constructor.
  - inversion H as [|? ? Hx Hl]; subst. constructor; [|auto].
    rewrite Forall_forall in *. intros b Hb. apply Hx.
    eapply Permutation_in; [apply Permutation_sym; exact Hp|exact Hb].
  - inversion H as [|? ? Hy Hl]; subst. inversion Hl as [|? ? Hx Hl']; subst.
    inversion Hy as [|? ? Hyx Hyl]; subst.
    constructor; [|constructor; assumption].
    constructor; [|assumption]. now apply Hsym.
  - auto.
Qed.

(** Disjoint ranges with distinct [Start]s are apart from each other unless
    one of them is an insertion inside the other. *)
Lemma disjoint_separated (source : string) (edits : list Edit) :
  pairwise_disjoint edits -> no_insertion_inside edits ->
  Forall (in_bounds source) edits -> NoDup (map Edit_Start edits) ->
  ForallOrdPairs separated edits.
Proof.
  unfold pairwise_disjoint, no_insertion_inside.
  induction edits as [|a edits IH]; intros Hd Hi Hb Hn; [constructor|].
  inversion Hd as [|? ? Hda Hd']; subst. inversion Hi as [|? ? Hia Hi']; subst.
  inversion Hb as [|? ? Hba Hb']; subst. cbn [map] in Hn.
  inversion Hn as [|? ? Hna Hn']; subst.
  constructor; [|auto].
  rewrite Forall_forall in *. intros b Hin.
  pose proof (Hda b Hin) as D. pose proof (Hia b Hin) as [I1 I2].
  pose proof (Hb' b Hin) as Bb.
  assert (Edit_Start a <> Edit_Start b).
  { intros E. apply Hna. rewrite E. now apply in_map. }
  unfold ranges_intersect, inserted_inside, in_bounds, separated in *. lia.
Qed.

(** Edits in strict ascending order of [Start] that are within the document
    and apart from each other form a chain. *)
Lemma separated_chain (source : string) (edits : list Edit) (pos : Z) :
  StronglySorted start_lt edits -> ForallOrdPairs separated edits ->
  Forall (in_bounds source) edits ->
  pos <= len source -> Forall (fun e => pos <= Edit_Start e) edits ->
  ascending_chain pos edits (len source).
Proof.
  intros Hs. revert pos. induction Hs as [|e edits Hs IH Hlt]; intros pos Hsep Hb Hpos Hfrom.
  - exact Hpos.
  - inversion Hsep as [|? ? Hse Hsep']; subst. inversion Hb as [|? ? Hbe Hb']; subst.
    inversion Hfrom as [|? ? Hfe Hfrom']; subst.
    unfold in_bounds in Hbe. cbn [ascending_chain]. split; [lia|].
    apply IH; try assumption; [lia|].
    rewrite Forall_forall in *. intros x Hx.
    pose proof (Hlt x Hx) as L. pose proof (Hse x Hx) as S. pose proof (Hb' x Hx) as B.
    unfold start_lt, separated, in_bounds in *. lia.
Qed.

(** C3, amended. For edits with pairwise disjoint ranges within the
    document, with pairwise distinct [Start] offsets and with no insertion
    strictly inside the range of another edit, [Apply] returns a document
    and no error, and the same document for every permutation of the edit
    list: the source with every range replaced by the text of its edit. *)
Theorem Apply_permutation_invariant (source : string) (edits edits' : list Edit) :
  pairwise_disjoint edits ->
  no_insertion_inside edits ->
  Forall (in_bounds source) edits ->
  NoDup (map Edit_Start edits) ->
  Permutation edits edits' ->
  Apply source edits' = Apply source edits
  /\ Apply source edits = (patched source (rev (sort_Slice edits)), None).
Proof.
  intros Hd Hi Hb Hnd Hp.
  assert (Hsame : Apply source edits' = Apply source edits).
  { unfold Apply. rewrite <- (Permutation_length Hp).
    now rewrite (sort_Slice_permutation_invariant edits edits' Hnd Hp). }
  split; [exact Hsame|]. clear Hsame Hp edits'.
  unfold Apply. destruct (Z.of_nat (List.length edits) =? 0) eqn:E.
  - apply Z.eqb_eq in E. destruct edits; [|simpl in E; lia].
    unfold patched. simpl. now rewrite segment_to_end.
  - set (ascending := rev (sort_Slice edits)).
    assert (Hperm : Permutation edits ascending).
    { unfold ascending. rewrite <- Permutation_rev. symmetry. apply sort_Slice_perm. }
    assert (Hchain : ascending_chain 0 ascending (len source)).
    { apply separated_chain.
      - apply sorted_distinct_strict.
        + unfold ascending, sort_Slice. rewrite rev_involutive.
          apply insertion_fold_sorted. constructor.
        + eapply Permutation_NoDup; [|exact Hnd]. now apply Permutation_map.
      - apply (ForallOrdPairs_perm separated edits); [|exact Hperm|].
        + unfold separated. intros; lia.
        + now apply (disjoint_separated source).
      - eapply Permutation_Forall; [exact Hperm|exact Hb].
      - apply len_nonneg.
      - eapply Permutation_Forall; [exact Hperm|].
        eapply Forall_impl; [|exact Hb]. unfold in_bounds. intros; lia. }
    replace (sort_Slice edits) with (rev ascending)
      by (unfold ascending; apply rev_involutive).
    pose proof (apply_loop_chain source ascending 0 (len source) EmptyString
                  ltac:(lia) ltac:(lia) Hchain) as H.
    rewrite append_empty_r in H. rewrite take_all in H by (unfold len; lia).
    rewrite H. simpl. now rewrite append_empty_r.
Qed.

Lemma Apply_permutation_invariant_witness :
  let x := mkEdit 0 1 "X" in
  let y := mkEdit 4 5 "Y" in
  let z := mkEdit 2 2 "Z" in
  Apply "abcdef" [z; x; y] = Apply "abcdef" [x; y; z]
  /\ Apply "abcdef" [x; y; z] = ("XbZcdYf", None).
Proof.
  cbv zeta.
  apply (Apply_permutation_invariant "abcdef"
           [mkEdit 0 1 "X"; mkEdit 4 5 "Y"; mkEdit 2 2 "Z"]
           [mkEdit 2 2 "Z"; mkEdit 0 1 "X"; mkEdit 4 5 "Y"]).
  - repeat constructor; unfold ranges_intersect; simpl; lia.
  - repeat constructor; unfold inserted_inside; simpl; lia.
  - repeat constructor; unfold len; simpl; lia.
  - repeat constructor; simpl; intuition lia.
  - apply Permutation_sym, (Permutation_cons_app [mkEdit 0 1 "X"; mkEdit 4 5 "Y"] []).
    reflexivity.
Defined.

(** * The locator: specified behaviour *)

Lemma nSearch_positive (search : string) :
  search <> EmptyString -> 1 <= Z.of_nat (List.length (trimSplit search)).
Proof.
  intros H. destruct (trimSplit search) eqn:E; [|simpl; lia].
  apply trimSplit_nil_iff in E. contradiction.
Qed.

(** What a successful [Search] has found. *)
Lemma Search_found (source : string) (diff : Diff) (threshold : float) (e : Edit) :
  let lines := trimSplit source in
  let nLines := Z.of_nat (List.length lines) in
  let nSearch := Z.of_nat (List.length (trimSplit (Diff_Search diff))) in
  let startIdx := clamp_hint (Diff_Line diff) nLines in
  Search source diff threshold = Ret (e, true) ->
  exists at_,
    find (acceptable lines diff threshold nSearch)
         (all_in_range_candidates nLines nSearch startIdx) = Some at_
    /\ e = edit_at lines diff nSearch at_
    /\ 1 <= nSearch /\ startIdx + nSearch <= nLines
    /\ 0 <= at_ /\ at_ + nSearch <= nLines.
Proof.
  intros lines nLines nSearch startIdx H.
  rewrite Search_unfold in H. fold lines nLines nSearch startIdx in H.
  destruct ((nSearch =? 0) || (nLines <? startIdx + nSearch)) eqn:G;
    [discriminate|].
  apply orb_false_iff in G as [G1 G2]. apply Z.eqb_neq in G1. apply Z.ltb_ge in G2.
  unfold first_acceptable in H.
  destruct (find _ _) as [at_|] eqn:F; [|discriminate].
  injection H as <-. exists at_. split; [reflexivity|]. split; [reflexivity|].
  split; [unfold nSearch in *; lia|]. split; [assumption|].
  apply find_some in F as [Hin _].
  apply all_in_range_candidates_in in Hin; [assumption|].
  unfold startIdx, clamp_hint. lia.
Qed.

(** C4, as stated, fails for an empty search text: it spans no line, the
    empty join of lines at the hint equals it, and [Search] reports no
    match. *)
Lemma Search_exact_match_empty_search :
  let source := one_line in
  let diff := mkDiff 1 EmptyString "x" in
  let lines := trimSplit source in
  let nLines := Z.of_nat (List.length lines) in
  let nSearch := Z.of_nat (List.length (trimSplit (Diff_Search diff))) in
  let startIdx := clamp_hint (Diff_Line diff) nLines in
  startIdx + nSearch <= nLines
  /\ chunk_at lines nSearch startIdx = Diff_Search diff
  /\ Search source diff 1 = Ret (zero_Edit, false).
Proof. cbv zeta. split; [vm_compute; discriminate|]. split; reflexivity. Qed.

(** C4, amended. If the search text is not empty and the lines of the
    document (a Go string: shorter than [2^63] bytes), joined from the
    clamped zero-based hint over the number of lines that the search text
    spans, equal it byte for byte, then [Search] with threshold 1.0
    succeeds with the edit whose [Start] and [End] are the byte offsets of
    that line range. *)
Theorem Search_exact_match (source : string) (diff : Diff) :
  let lines := trimSplit source in
  let nLines := Z.of_nat (List.length lines) in
  let nSearch := Z.of_nat (List.length (trimSplit (Diff_Search diff))) in
  let startIdx := clamp_hint (Diff_Line diff) nLines in
  len source < 2 ^ 63 ->
  Diff_Search diff <> EmptyString ->
  startIdx + nSearch <= nLines ->
  chunk_at lines nSearch startIdx = Diff_Search diff ->
  Search source diff 1
  = Ret (mkEdit (line_offset lines startIdx)
                (line_offset lines (startIdx + nSearch))
                (Diff_Replace diff), true).
Proof.
  intros lines nLines nSearch startIdx Hlen Hne Hroom Hchunk.
  pose proof (nSearch_positive _ Hne) as Hk. fold nSearch in Hk.
  assert (H0 : 0 <= startIdx) by (unfold startIdx, clamp_hint; lia).
  rewrite Search_unfold. fold lines nLines nSearch startIdx.
  replace ((nSearch =? 0) || (nLines <? startIdx + nSearch)) with false.
  2:{ symmetry. apply orb_false_iff. split; [apply Z.eqb_neq|apply Z.ltb_ge]; lia. }
  destruct (all_in_range_candidates_head nLines nSearch startIdx H0 Hroom) as [rest ->].
  unfold first_acceptable. cbn [find].
  assert (Hacc : acceptable lines diff 1 nSearch startIdx = true).
  { unfold acceptable. rewrite Hchunk, similarity_same; [reflexivity|].
    rewrite <- Hchunk.
    pose proof (chunk_offset lines nSearch startIdx H0 ltac:(lia)) as Hoff.
    pose proof (line_offset_nonneg lines startIdx).
    pose proof (line_offset_le_total lines (startIdx + nSearch)) as Htot.
    unfold lines in Htot at 2. rewrite Join_trimSplit in Htot. lia. }
  rewrite Hacc. reflexivity.
Qed.

Lemma Search_exact_match_witness :
  Search three_lines (mkDiff 2 line_b "x") 1 = Ret (mkEdit 2 4 "x", true).
Proof.
  apply (Search_exact_match three_lines (mkDiff 2 line_b "x")).
  - vm_compute. reflexivity.
  - discriminate.
  - vm_compute. discriminate.
  - reflexivity.
Defined.

(** C5. When [Search] succeeds for a threshold it succeeds for every lower
    one, on the same candidate or on one that comes earlier in the
    above-then-below order of increasing radius. *)
Theorem Search_threshold_monotone (source : string) (diff : Diff)
    (t1 t2 : float) (e1 : Edit) :
  let lines := trimSplit source in
  let nLines := Z.of_nat (List.length lines) in
  let nSearch := Z.of_nat (List.length (trimSplit (Diff_Search diff))) in
  let startIdx := clamp_hint (Diff_Line diff) nLines in
  let order := all_in_range_candidates nLines nSearch startIdx in
  (t2 <=? t1)%float = true ->
  Search source diff t1 = Ret (e1, true) ->
  exists (i1 i2 : nat) (at1 at2 : Z),
    (i2 <= i1)%nat
    /\ nth_error order i1 = Some at1
    /\ nth_error order i2 = Some at2
    /\ e1 = edit_at lines diff nSearch at1
    /\ Search source diff t2 = Ret (edit_at lines diff nSearch at2, true).
Proof.
  intros lines nLines nSearch startIdx order Ht H.
  pose proof (Search_found source diff t1 e1 H) as (at1 & F & -> & Hk & Hroom & _).
  fold lines nLines nSearch startIdx order in F, Hroom.
  destruct (find_earlier (acceptable lines diff t1 nSearch)
              (acceptable lines diff t2 nSearch) order at1) as (i1 & i2 & at2 & Hi1 & Hi2 & Hle & F2).
  { intros c Hc. unfold acceptable in *. eapply float_leb_trans; eassumption. }
  { exact F. }
  exists i1, i2, at1, at2. repeat split; try assumption.
  rewrite Search_unfold. fold lines nLines nSearch startIdx order.
  replace ((nSearch =? 0) || (nLines <? startIdx + nSearch)) with false.
  2:{ symmetry. apply orb_false_iff. split; [apply Z.eqb_neq|apply Z.ltb_ge]; lia. }
  unfold first_acceptable. now rewrite F2.
Qed.

Lemma Search_threshold_monotone_witness :
  Search three_lines (mkDiff 1 line_b "x") 1 = Ret (mkEdit 2 4 "x", true)
  /\ exists (i1 i2 : nat) (at1 at2 : Z),
      (i2 <= i1)%nat
      /\ nth_error [0; 1; 2] i1 = Some at1
      /\ nth_error [0; 1; 2] i2 = Some at2
      /\ mkEdit 2 4 "x" = edit_at (trimSplit three_lines) (mkDiff 1 line_b "x") 1 at1
      /\ Search three_lines (mkDiff 1 line_b "x") 0.5
         = Ret (edit_at (trimSplit three_lines) (mkDiff 1 line_b "x") 1 at2, true).
Proof.
  split; [reflexivity|].
  apply (Search_threshold_monotone three_lines (mkDiff 1 line_b "x") 1 0.5 (mkEdit 2 4 "x")).
  - reflexivity.
  - reflexivity.
Defined.

(** C6, as stated, fails: with the hint on the last line and a search text
    of two lines, the candidates at lines 1 and 0 lie within the document at
    radius 1 and 2, the one at line 0 matches exactly, and [Search] stops at
    radius 0, where neither candidate is in range. *)
Lemma Search_gives_up_before_in_range_candidates :
  let source := three_lines in
  let diff := mkDiff 3 lines_ab "x" in
  let lines := trimSplit source in
  all_in_range_candidates 3 2 (clamp_hint 3 3) = [1; 0]
  /\ first_acceptable lines diff 1 2 (all_in_range_candidates 3 2 (clamp_hint 3 3))
     = (mkEdit 0 4 "x", true)
  /\ Search source diff 1 = Ret (zero_Edit, false).
Proof. cbv zeta. repeat split; reflexivity. Qed.

(** C6, amended. When the search text spans at least one line and the
    clamped hint leaves room for that many lines in the document, [Search]
    looks at the candidates in the order of increasing radius, at each
    radius the one above and then (for a positive radius) the one below,
    those only that lie within the lines of the document, and returns the
    first one whose similarity reaches the threshold, or no match when
    there is none. In every other case it returns no match. *)
Theorem Search_first_acceptable_by_radius (source : string) (diff : Diff)
    (threshold : float) :
  let lines := trimSplit source in
  let nLines := Z.of_nat (List.length lines) in
  let nSearch := Z.of_nat (List.length (trimSplit (Diff_Search diff))) in
  let startIdx := clamp_hint (Diff_Line diff) nLines in
  (1 <= nSearch -> startIdx + nSearch <= nLines ->
   Search source diff threshold
   = Ret (first_acceptable lines diff threshold nSearch
            (all_in_range_candidates nLines nSearch startIdx)))
  /\ (nSearch = 0 \/ nLines < startIdx + nSearch ->
      Search source diff threshold = Ret (zero_Edit, false)).
Proof.
  intros lines nLines nSearch startIdx.
  rewrite Search_unfold. fold lines nLines nSearch startIdx. split.
  - intros Hk Hroom.
    replace ((nSearch =? 0) || (nLines <? startIdx + nSearch)) with false; [reflexivity|].
    symmetry. apply orb_false_iff. split; [apply Z.eqb_neq|apply Z.ltb_ge]; lia.
  - intros H.
    replace ((nSearch =? 0) || (nLines <? startIdx + nSearch)) with true; [reflexivity|].
    symmetry. apply orb_true_iff. rewrite Z.eqb_eq, Z.ltb_lt. exact H.
Qed.

Lemma Search_first_acceptable_by_radius_witness :
  (Search three_lines (mkDiff 2 "c
" "x") 1
   = Ret (first_acceptable (trimSplit three_lines) (mkDiff 2 "c
" "x") 1 1 [1; 0; 2]))
  /\ Search three_lines (mkDiff 3 lines_ab "x") 1 = Ret (zero_Edit, false).
Proof.
  split.
  - apply (Search_first_acceptable_by_radius three_lines (mkDiff 2 "c
" "x") 1).
    + vm_compute. discriminate.
    + vm_compute. discriminate.
  - apply (Search_first_acceptable_by_radius three_lines (mkDiff 3 lines_ab "x") 1).
    right. vm_compute. reflexivity.
Defined.

(** C8. The edit of a successful [Search] lies within the document, its
    [Start] and [End] are offsets at which lines of the document begin or
    end, and its [Text] is the replacement of the diff. *)
Theorem Search_edit_on_line_boundaries (source : string) (diff : Diff)
    (threshold : float) (e : Edit) :
  Search source diff threshold = Ret (e, true) ->
  let lines := trimSplit source in
  0 <= Edit_Start e <= Edit_End e
  /\ Edit_End e <= len source
  /\ (exists i j : Z,
        0 <= i <= j /\ j <= Z.of_nat (List.length lines)
        /\ Edit_Start e = line_offset lines i
        /\ Edit_End e = line_offset lines j)
  /\ Edit_Text e = Diff_Replace diff.
Proof.
  intros H lines.
  pose proof (Search_found source diff threshold e H) as (at_ & _ & -> & Hk & _ & H0 & H1).
  fold lines in H1.
  set (nSearch := Z.of_nat (List.length (trimSplit (Diff_Search diff)))) in *.
  unfold edit_at. cbn [Edit_Start Edit_End Edit_Text].
  pose proof (line_offset_nonneg lines at_).
  pose proof (line_offset_mono lines at_ (at_ + nSearch) ltac:(lia)).
  pose proof (line_offset_le_total lines (at_ + nSearch)) as Htot.
  unfold lines in Htot at 2. rewrite Join_trimSplit in Htot.
  fold lines. split; [lia|]. split; [lia|]. split; [|reflexivity].
  exists at_, (at_ + nSearch). repeat split; lia.
Qed.

Lemma Search_edit_on_line_boundaries_witness :
  let e := mkEdit 2 4 "x" in
  0 <= Edit_Start e <= Edit_End e
  /\ Edit_End e <= len three_lines
  /\ (exists i j : Z,
        0 <= i <= j /\ j <= Z.of_nat (List.length (trimSplit three_lines))
        /\ Edit_Start e = line_offset (trimSplit three_lines) i
        /\ Edit_End e = line_offset (trimSplit three_lines) j)
  /\ Edit_Text e = "x".
Proof.
  apply (Search_edit_on_line_boundaries three_lines (mkDiff 1 line_b "x") 0.75).
  reflexivity.
Defined.
(** ** Decimal numbers *)

Lemma digit_of_digit_char (d : Z) : 0 <= d <= 9 -> digit_of (digit_char d) = Some d.
Proof.
  intros H.
  assert (C : d = 0 \/ d = 1 \/ d = 2 \/ d = 3 \/ d = 4 \/ d = 5 \/ d = 6 \/ d = 7
              \/ d = 8 \/ d = 9) by lia.
  repeat (destruct C as [->|C]; [reflexivity|]). subst. reflexivity.
Qed.

Lemma parse_digits_app (acc : Z) (s1 s2 : string) :
  parse_digits acc (String.append s1 s2) =
  match parse_digits acc s1 with
  | Some v => parse_digits v s2
  | None => None
  end.
Proof.
  revert acc. induction s1 as [|c s1 IH]; intros acc; simpl; [reflexivity|].
  destruct (digit_of c); [apply IH|reflexivity].
Qed.

Lemma utoa_acc (fuel : nat) (n : Z) (acc : string) :
  utoa fuel n acc = String.append (utoa fuel n EmptyString) acc.
Proof.
  revert n acc. induction fuel as [|fuel IH]; intros n acc; simpl; [reflexivity|].
  destruct (n <? 10); [reflexivity|].
  rewrite IH, (IH _ (String _ EmptyString)), append_assoc. reflexivity.
Qed.

Lemma parse_digits_utoa (fuel : nat) (n : Z) :
  (0 < fuel)%nat -> 0 <= n < 10 ^ Z.of_nat fuel ->
  parse_digits 0 (utoa fuel n EmptyString) = Some n.
Proof.
  revert n. induction fuel as [|fuel IH]; intros n Hf Hn; [lia|].
  cbn [utoa]. destruct (n <? 10) eqn:E.
  - apply Z.ltb_lt in E. cbn [parse_digits].
    rewrite Z.mod_small, digit_of_digit_char by lia. reflexivity.
  - apply Z.ltb_ge in E. rewrite utoa_acc, parse_digits_app.
    assert (Hdiv : 0 <= n / 10 < 10 ^ Z.of_nat fuel).
    { split; [apply Z.div_pos; lia|].
      apply Z.div_lt_upper_bound; [lia|].
      rewrite Nat2Z.inj_succ, Z.pow_succ_r in Hn by lia. lia. }
    assert (Hfuel : (0 < fuel)%nat).
    { destruct fuel; [|lia]. simpl in Hn. lia. }
    rewrite IH by assumption. cbn [parse_digits].
    pose proof (Z.mod_pos_bound n 10 ltac:(lia)) as Hm.
    rewrite digit_of_digit_char by lia. f_equal.
    pose proof (Z.div_mod n 10 ltac:(lia)). lia.
Qed.

Lemma is_digit_digit_char (d : Z) : 0 <= d <= 9 -> is_digit (digit_char d) = true.
Proof. intros H. unfold is_digit. now rewrite digit_of_digit_char. Qed.

Lemma utoa_all_digits (fuel : nat) (n : Z) (acc : string) :
  0 <= n -> all_chars is_digit acc = true -> all_chars is_digit (utoa fuel n acc) = true.
Proof.
  revert n acc. induction fuel as [|fuel IH]; intros n acc Hn Hacc; cbn [utoa]; [assumption|].
  pose proof (Z.mod_pos_bound n 10 ltac:(lia)) as Hm.
  assert (Hacc' : all_chars is_digit (String (digit_char (n mod 10)) acc) = true).
  { cbn [all_chars]. rewrite is_digit_digit_char by lia. exact Hacc. }
  destruct (n <? 10); [assumption|].
  apply IH; [apply Z.div_pos; lia|assumption].
Qed.

Lemma utoa_not_empty (fuel : nat) (n : Z) (acc : string) :
  (0 < fuel)%nat -> utoa fuel n acc <> EmptyString.
Proof.
  intros Hf. rewrite utoa_acc. destruct fuel as [|fuel]; [lia|]. cbn [utoa].
  destruct (n <? 10); [discriminate|].
  rewrite utoa_acc. destruct (utoa fuel (n / 10) EmptyString); discriminate.
Qed.

Lemma is_digit_not_sign (c : ascii) :
  is_digit c = true -> Ascii.eqb c "+" = false /\ Ascii.eqb c "-" = false.
Proof.
  intros H. split.
  - destruct (Ascii.eqb_spec c "+") as [->|]; [discriminate|reflexivity].
  - destruct (Ascii.eqb_spec c "-") as [->|]; [discriminate|reflexivity].
Qed.

Lemma Atoi_Itoa (z : Z) : minInt <= z <= maxInt -> Atoi (Itoa z) = Some z.
Proof.
  unfold minInt, maxInt. intros Hz. unfold Itoa.
  destruct (z <? 0) eqn:E.
  - apply Z.ltb_lt in E. unfold Atoi. cbn [Ascii.eqb Bool.eqb]. cbv iota.
    pose proof (utoa_not_empty 19 (- z) EmptyString ltac:(lia)) as Hne.
    destruct (utoa 19 (- z) EmptyString) eqn:Eu; [contradiction|]. rewrite <- Eu.
    rewrite parse_digits_utoa by (try lia; change (10 ^ Z.of_nat 19) with (10 ^ 19); lia).
    rewrite Z.opp_involutive.
    replace ((minInt <=? z) && (z <=? maxInt)) with true; [reflexivity|].
    symmetry. unfold minInt, maxInt. apply andb_true_iff. rewrite !Z.leb_le. lia.
  - apply Z.ltb_ge in E. unfold Atoi.
    pose proof (utoa_not_empty 19 z EmptyString ltac:(lia)) as Hne.
    pose proof (utoa_all_digits 19 z EmptyString E eq_refl) as Hd.
    destruct (utoa 19 z EmptyString) as [|c t] eqn:Eu; [contradiction|].
    cbn [all_chars] in Hd. apply andb_true_iff in Hd as [Hc _].
    destruct (is_digit_not_sign c Hc) as [-> ->]. rewrite <- Eu.
    rewrite parse_digits_utoa by (try lia; change (10 ^ Z.of_nat 19) with (10 ^ 19); lia).
    replace ((minInt <=? z) && (z <=? maxInt)) with true; [reflexivity|].
    symmetry. unfold minInt, maxInt. apply andb_true_iff. rewrite !Z.leb_le. lia.
Qed.

(** ** Trimming *)

Lemma rev_string_acc (acc s : string) :
  rev_string acc s = String.append (rev_string EmptyString s) acc.
Proof.
  revert acc. induction s as [|c s IH]; intros acc; simpl; [reflexivity|].
  rewrite IH, (IH (String c EmptyString)), append_assoc. reflexivity.
Qed.

Lemma rev_string_app (a b : string) :
  rev_string EmptyString (String.append a b) =
  String.append (rev_string EmptyString b) (rev_string EmptyString a).
Proof.
  induction a as [|c a IH]; simpl.
  - now rewrite append_empty_r.
  - rewrite (rev_string_acc (String c EmptyString) (String.append a b)), IH,
      (rev_string_acc (String c EmptyString) a), append_assoc.
    reflexivity.
Qed.

Lemma rev_string_involutive (s : string) :
  rev_string EmptyString (rev_string EmptyString s) = s.
Proof.
  induction s as [|c s IH]; simpl; [reflexivity|].
  rewrite (rev_string_acc (String c EmptyString) s), rev_string_app, IH. reflexivity.
Qed.

Lemma all_chars_app (p : ascii -> bool) (a b : string) :
  all_chars p (String.append a b) = all_chars p a && all_chars p b.
Proof.
  induction a as [|c a IH]; simpl; [reflexivity|]. now rewrite IH, andb_assoc.
Qed.

Lemma all_chars_rev (p : ascii -> bool) (s : string) :
  all_chars p (rev_string EmptyString s) = all_chars p s.
Proof.
  induction s as [|c s IH]; simpl; [reflexivity|].
  rewrite (rev_string_acc (String c EmptyString) s), all_chars_app, IH. simpl.
  rewrite andb_true_r. apply andb_comm.
Qed.

Lemma rev_string_not_empty (s : string) :
  s <> EmptyString -> rev_string EmptyString s <> EmptyString.
Proof.
  intros Hne E. apply Hne. rewrite <- (rev_string_involutive s), E. reflexivity.
Qed.

Lemma prefix_other_char (r : string) (c : ascii) (s : string) :
  begins_otherwise c r = true -> String.prefix r (String c s) = false.
Proof.
  destruct r as [|d r]; simpl; [discriminate|].
  intros H. destruct (ascii_dec d c) as [->|_]; [|reflexivity].
  now rewrite Ascii.eqb_refl in H.
Qed.

Lemma find_prefix_none (runes : list string) (c : ascii) (s : string) :
  forallb (begins_otherwise c) runes = true ->
  find (fun r => String.prefix r (String c s)) runes = None.
Proof.
  induction runes as [|r runes IH]; cbn [find forallb]; [reflexivity|].
  intros H. apply andb_true_iff in H as [Hr Hrest].
  rewrite (prefix_other_char r c s Hr). now apply IH.
Qed.

Lemma trim_runes_left_stop (fuel : nat) (runes : list string) (s : string) :
  find (fun r => String.prefix r s) runes = None ->
  trim_runes_left fuel runes s = s.
Proof. intros H. destruct fuel; simpl; [reflexivity|]. now rewrite H. Qed.

Lemma trim_runes_left_step (fuel : nat) (runes : list string) (s r : string) :
  find (fun r => String.prefix r s) runes = Some r ->
  trim_runes_left (S fuel) runes s = trim_runes_left fuel runes (drop (String.length r) s).
Proof. intros H. simpl. now rewrite H. Qed.

Lemma prefix_single (c : ascii) (s : string) :
  String.prefix (String c EmptyString) (String c s) = true.
Proof.
  simpl. destruct (ascii_dec c c) as [_|H]; [now destruct s|contradiction].
Qed.

Lemma hint_char_not_space (c : ascii) :
  is_hint_char c = true ->
  forallb (begins_otherwise c) (map (rev_string EmptyString) space_runes) = true.
Proof.
  destruct c as [[|] [|] [|] [|] [|] [|] [|] [|]]; intros H;
    try (vm_compute in H; discriminate H); vm_compute; reflexivity.
Qed.

Lemma hint_char_not_newline (c : ascii) : is_hint_char c = true -> Ascii.eqb c nl = false.
Proof.
  intros H. destruct (Ascii.eqb_spec c nl) as [->|]; [discriminate|reflexivity].
Qed.

(** What [parseStartSearch] trims: the rest of a marker line with hint [s]. *)
Lemma TrimSpace_hint (s : string) :
  s <> EmptyString -> all_chars is_hint_char s = true ->
  TrimSpace (String.append " line:" (String.append s (String nl EmptyString)))
  = String.append "line:" s.
Proof.
  intros Hne Hs. unfold TrimSpace.
  set (tail := String.append s (String nl EmptyString)).
  assert (Hl : trim_runes_left (String.length (String.append " line:" tail)) space_runes
                 (String.append " line:" tail) = String.append "line:" tail).
  { cbn [String.append String.length].
    rewrite (trim_runes_left_step _ _ _ " ") by reflexivity.
    cbn [drop String.length]. apply trim_runes_left_stop. reflexivity. }
  rewrite Hl. clear Hl.
  assert (Hr : rev_string EmptyString (String.append "line:" tail)
               = String nl (String.append (rev_string EmptyString s) ":enil")).
  { unfold tail. rewrite !rev_string_app. reflexivity. }
  rewrite Hr. clear Hr.
  cbn [String.append String.length].
  rewrite (trim_runes_left_step _ _ _ (String nl EmptyString)).
  2:{ change (map (rev_string EmptyString) space_runes)
        with (String "009" EmptyString :: String nl EmptyString
              :: skipn 2 (map (rev_string EmptyString) space_runes)).
      cbn [find]. rewrite prefix_single.
      rewrite prefix_other_char by reflexivity. reflexivity. }
  cbn [drop String.length].
  pose proof (rev_string_not_empty s Hne) as Hrne.
  pose proof (all_chars_rev is_hint_char s) as Hrev. rewrite Hs in Hrev.
  destruct (rev_string EmptyString s) as [|c t] eqn:Erev; [contradiction|].
  cbn [all_chars] in Hrev. apply andb_true_iff in Hrev as [Hc _].
  cbn [String.append].
  rewrite trim_runes_left_stop by (apply find_prefix_none, hint_char_not_space, Hc).
  change (String c (String.append t ":enil"))
    with (String.append (String c t) ":enil").
  rewrite <- Erev, rev_string_app, rev_string_involutive. reflexivity.
Qed.

(** ** The hint of a marker line *)

Lemma all_chars_weaken (p q : ascii -> bool) (s : string) :
  (forall c, p c = true -> q c = true) ->
  all_chars p s = true -> all_chars q s = true.
Proof.
  intros Hpq. induction s as [|c s IH]; simpl; [reflexivity|].
  intros H. apply andb_true_iff in H as [Hc Hs].
  now rewrite (Hpq c Hc), IH.
Qed.

Lemma parse_digits_all_digits (acc : Z) (s : string) (v : Z) :
  parse_digits acc s = Some v -> all_chars is_digit s = true.
Proof.
  revert acc. induction s as [|c s IH]; intros acc H; simpl in *; [reflexivity|].
  unfold is_digit. destruct (digit_of c); [|discriminate].
  simpl. eapply IH, H.
Qed.

Lemma is_digit_hint_char (c : ascii) : is_digit c = true -> is_hint_char c = true.
Proof. unfold is_hint_char. now intros ->. Qed.

Lemma Atoi_hint_chars (s : string) (n : Z) :
  Atoi s = Some n -> s <> EmptyString /\ all_chars is_hint_char s = true.
Proof.
  unfold Atoi. destruct s as [|c r]; [discriminate|].
  intros H. split; [discriminate|].
  assert (Hbody : forall body neg,
             match body with
             | EmptyString => None
             | String _ _ =>
                 match parse_digits 0 body with
                 | Some n0 =>
                     let v := if neg : bool then - n0 else n0 in
                     if (minInt <=? v) && (v <=? maxInt) then Some v else None
                 | None => None
                 end
             end = Some n -> all_chars is_hint_char body = true).
  { intros body neg Hb. destruct body as [|d body]; [discriminate|].
    destruct (parse_digits 0 (String d body)) eqn:E; [|discriminate].
    apply (all_chars_weaken is_digit); [apply is_digit_hint_char|].
    eapply parse_digits_all_digits, E. }
  cbn [all_chars]. unfold is_hint_char at 1.
  destruct (Ascii.eqb c "+") eqn:Eplus.
  - rewrite orb_true_r. simpl. exact (Hbody r false H).
  - destruct (Ascii.eqb c "-") eqn:Eminus.
    + rewrite orb_true_r. simpl. exact (Hbody r true H).
    + apply (Hbody (String c r) false) in H. cbn [all_chars] in H. unfold is_hint_char at 1 in H.
      rewrite Eplus, Eminus in H. exact H.
Qed.

Lemma Lines_first_line (l rest : string) :
  all_chars is_hint_char l = true ->
  Lines (String.append l (String nl rest))
  = String.append l (String nl EmptyString) :: Lines rest.
Proof.
  induction l as [|c l IH]; intros H; [reflexivity|].
  cbn [all_chars] in H. apply andb_true_iff in H as [Hc Hl].
  cbn [String.append Lines]. rewrite (hint_char_not_newline c Hc), (IH Hl). reflexivity.
Qed.

Lemma classify_marker_line (hint : string) :
  classify_line (marker_line hint) = startSearchType.
Proof.
  unfold classify_line. cbv zeta.
  replace (HasPrefix (marker_line hint) startSearchPrefix) with true by reflexivity.
  reflexivity.
Qed.

Lemma tokenize_from_cons (lineNo : Z) (line : string) (lines : list string) :
  tokenize_from lineNo (line :: lines)
  = mkToken (classify_line line) lineNo line :: tokenize_from (lineNo + 1) lines.
Proof. reflexivity. Qed.

Lemma tokenize_hint_block (hint : string) :
  all_chars is_hint_char hint = true ->
  tokenize (hint_block hint)
  = mkToken startSearchType 0 (marker_line hint) :: tokenize_from 1 (Lines block_body).
Proof.
  intros H. unfold tokenize, hint_block.
  assert (E : Lines (String.append startSearchPrefix
                (String.append " line:" (String.append hint (String nl block_body))))
              = marker_line hint :: Lines block_body).
  { unfold marker_line.
    cbn [startSearchPrefix String.append Lines Ascii.eqb Bool.eqb nl].
    fold nl. rewrite (Lines_first_line hint block_body H). reflexivity. }
  rewrite E, tokenize_from_cons, classify_marker_line. reflexivity.
Qed.

Lemma skip_blank_marker (tok : token) (rest : list token) :
  token_Type tok = startSearchType -> skip_blank tok rest = mkParser tok rest.
Proof. intros H. destruct rest; simpl; now rewrite H. Qed.

(** [parseStartSearch] on a marker line whose hint [strconv.Atoi] accepts. *)
Lemma parseStartSearch_hint (hint : string) (n lineNo : Z) (rest : list token) :
  Atoi hint = Some n ->
  let p := mkParser (mkToken startSearchType lineNo (marker_line hint)) rest in
  parseStartSearch p = ((n, None), snd (read p)).
Proof.
  intros Hatoi p. destruct (Atoi_hint_chars hint n Hatoi) as [Hne Hchars].
  unfold parseStartSearch, p. cbn [parser_current parser_rest].
  rewrite skip_blank_marker by reflexivity.
  unfold expect. destruct (read _) as [tok p2] eqn:Eread.
  assert (Etok : tok = mkToken startSearchType lineNo (marker_line hint))
    by (unfold read in Eread; destruct rest; now inversion Eread).
  subst tok. cbn [token_Type tokenType_eqb negb token_Text snd].
  unfold CutPrefix at 1.
  replace (HasPrefix (marker_line hint) startSearchPrefix) with true by reflexivity.
  replace (drop (String.length startSearchPrefix) (marker_line hint))
    with (String.append " line:" (String.append hint (String nl EmptyString)))
    by reflexivity.
  rewrite (TrimSpace_hint hint Hne Hchars).
  unfold CutPrefix.
  replace (HasPrefix (String.append "line:" hint) "line:") with true
    by (destruct hint; [contradiction|reflexivity]).
  replace (drop (String.length "line:") (String.append "line:" hint)) with hint
    by reflexivity.
  cbn [negb]. now rewrite Hatoi.
Qed.

Lemma Parse_first_token (input : string) (tok : token) (rest : list token) :
  tokenize input = tok :: rest ->
  Parse input = parse_loop (S (S (List.length rest))) (mkParser tok rest) [].
Proof. intros H. unfold Parse. rewrite H. reflexivity. Qed.

(** One round of the loop of [Parse] on the body of the sample block, for a
    marker token whose hint has been read as [n]. *)
Lemma parse_loop_block_body (tok : token) (rest : list token) (n : Z) :
  token_Type tok = startSearchType ->
  parseStartSearch (mkParser tok rest) = ((n, None), snd (read (mkParser tok rest))) ->
  rest = tokenize_from 1 (Lines block_body) ->
  parse_loop (S (S (List.length rest))) (mkParser tok rest) []
  = Ret ([mkDiff n one_line line_b], None).
Proof.
  intros Htype Hstart Hrest.
  cbn [parse_loop parser_current]. rewrite Htype. cbn [tokenType_eqb].
  unfold parseDiff. rewrite Hstart. subst rest. vm_compute. reflexivity.
Qed.

(** [Parse] on a block whose hint [strconv.Atoi] accepts: the value becomes
    the [Line] of the diff, whatever it is. *)
Lemma Parse_hint_block (hint : string) (n : Z) :
  Atoi hint = Some n ->
  Parse (hint_block hint) = Ret ([mkDiff n one_line line_b], None).
Proof.
  intros Hatoi. destruct (Atoi_hint_chars hint n Hatoi) as [Hne Hchars].
  rewrite (Parse_first_token _ _ _ (tokenize_hint_block hint Hchars)).
  apply parse_loop_block_body.
  - reflexivity.
  - apply (parseStartSearch_hint hint n 0 _ Hatoi).
  - reflexivity.
Qed.

(** ** The parser takes tokens *)

Lemma read_rest (p : parser) :
  parser_rest (snd (read p)) = tl (parser_rest p).
Proof. unfold read. now destruct (parser_rest p). Qed.

Lemma read_exhausted (p : parser) :
  parser_rest p = [] -> snd (read p) = mkParser (mkToken invalidType 0 no_text) [].
Proof. unfold read. now intros ->. Qed.

Lemma expect_parser (typ : tokenType) (p : parser) : snd (expect typ p) = snd (read p).
Proof.
  unfold expect. destruct (read p) as [tok p']. now destruct (negb _).
Qed.

Lemma expect_exhausted (typ : tokenType) (tok : token) (e : option ParseError) (p' : parser) :
  typ <> invalidType ->
  expect typ (mkParser (mkToken invalidType 0 no_text) []) <> ((tok, None), p').
Proof. intros Htyp. unfold expect. simpl. destruct typ; try discriminate. contradiction. Qed.

Lemma skip_blank_rest (current : token) (rest : list token) :
  (List.length (parser_rest (skip_blank current rest)) <= List.length rest)%nat.
Proof.
  revert current. induction rest as [|tok rest IH]; intros current; simpl.
  - destruct (_ && _); simpl; lia.
  - destruct (_ && _); simpl; [|lia]. specialize (IH tok). lia.
Qed.

Lemma read_text_rest (acc : string) (current : token) (rest : list token) :
  (List.length (parser_rest (snd (read_text acc current rest))) <= List.length rest)%nat.
Proof.
  revert acc current. induction rest as [|tok rest IH]; intros acc current; simpl.
  - destruct (tokenType_eqb _ _); simpl; lia.
  - destruct (tokenType_eqb _ _); simpl; [|lia].
    specialize (IH (String.append acc (token_Text current)) tok). lia.
Qed.

Lemma read_text_exhausted (acc : string) :
  read_text acc (mkToken invalidType 0 no_text) []
  = (acc, mkParser (mkToken invalidType 0 no_text) []).
Proof. reflexivity. Qed.

Lemma parseStartSearch_parser (p : parser) :
  snd (parseStartSearch p)
  = snd (read (skip_blank (parser_current p) (parser_rest p))).
Proof.
  unfold parseStartSearch.
  rewrite <- (expect_parser startSearchType).
  destruct (expect startSearchType _) as [[tok [e|]] p2]; [reflexivity|].
  destruct (CutPrefix (token_Text tok) _) as [suffix ?].
  destruct (CutPrefix (TrimSpace suffix) _) as [lineStr ok].
  destruct (negb ok); [reflexivity|]. now destruct (Atoi lineStr).
Qed.

(** A round of [parseDiff] that reports no error has taken a token. *)
Lemma parseDiff_takes_token (p p' : parser) (diff : Diff) :
  parseDiff p = ((diff, None), p') ->
  (List.length (parser_rest p') < List.length (parser_rest p))%nat.
Proof.
  unfold parseDiff. intros H.
  pose proof (parseStartSearch_parser p) as Hp1.
  pose proof (skip_blank_rest (parser_current p) (parser_rest p)) as Hskip.
  destruct (parseStartSearch p) as [[line [e|]] p1]; [discriminate|].
  cbn [snd] in Hp1.
  pose proof (read_text_rest no_text (parser_current p1) (parser_rest p1)) as Htext1.
  destruct (read_text no_text (parser_current p1) (parser_rest p1)) as [search p2] eqn:E2.
  cbn [snd] in Htext1.
  pose proof (expect_parser textSeparatorType p2) as Hp3.
  destruct (expect textSeparatorType p2) as [[tok3 [e|]] p3] eqn:E3; [discriminate|].
  cbn [snd] in Hp3.
  pose proof (read_text_rest no_text (parser_current p3) (parser_rest p3)) as Htext2.
  destruct (read_text no_text (parser_current p3) (parser_rest p3)) as [replace p4].
  cbn [snd] in Htext2.
  pose proof (expect_parser endReplaceType p4) as Hp5.
  destruct (expect endReplaceType p4) as [[tok5 e5] p5]. cbn [snd] in Hp5.
  assert (p' = p5) by (destruct e5; now inversion H). subst p'.
  pose proof (read_rest p4) as R4. rewrite <- Hp5 in R4.
  pose proof (read_rest p2) as R2. rewrite <- Hp3 in R2.
  pose proof (read_rest (skip_blank (parser_current p) (parser_rest p))) as R0.
  rewrite <- Hp1 in R0.
  destruct (parser_rest (skip_blank (parser_current p) (parser_rest p))) as [|t r] eqn:Er.
  - exfalso. rewrite (read_exhausted _ Er) in Hp1. subst p1.
    cbn [parser_current parser_rest] in E2. rewrite read_text_exhausted in E2.
    inversion E2; subst. revert E3. apply expect_exhausted; [exact None|discriminate].
  - assert (L4 : (List.length (parser_rest p5) <= List.length (parser_rest p4))%nat)
      by (rewrite R4; destruct (parser_rest p4); simpl; lia).
    assert (L2 : (List.length (parser_rest p3) <= List.length (parser_rest p2))%nat)
      by (rewrite R2; destruct (parser_rest p2); simpl; lia).
    rewrite R0 in Htext1. simpl in Hskip, Htext1. lia.
Qed.

Lemma parse_loop_fuel_enough (fuel : nat) (p : parser) (diffs : list Diff) :
  (List.length (parser_rest p) < fuel)%nat ->
  exists result, parse_loop fuel p diffs = Ret result.
Proof.
  revert p diffs. induction fuel as [|fuel IH]; intros p diffs Hf; [lia|].
  cbn [parse_loop]. destruct (tokenType_eqb _ EOF); [eauto|].
  destruct (parseDiff p) as [[diff [e|]] p'] eqn:E; [eauto|].
  apply IH. apply parseDiff_takes_token in E. lia.
Qed.

(** X1. [Parse] returns on every input: every round of its loop that
    reports no error has taken a token, so the loop ends. *)
Lemma Parse_fuel_enough (input : string) : exists result, Parse input = Ret result.
Proof.
  unfold Parse. destruct (read _) as [tok p] eqn:E.
  apply parse_loop_fuel_enough.
  pose proof (read_rest (mkParser (mkToken startSearchType 0 no_text) (tokenize input))) as R.
  rewrite E in R. cbn [snd parser_rest] in R. rewrite R.
  destruct (tokenize input); simpl; lia.
Qed.

(** * The parser and the similarity: specified behaviour *)

(** C1 (the code departs from the specification). The replace body of this block is
    followed by a separator, not by the end marker; [Parse] reports no error
    and returns one diff, the zero value. *)
Theorem Parse_missing_end_marker :
  Parse block_without_end = Ret ([zero_Diff], None).
Proof. vm_compute. reflexivity. Qed.

(** The zero-based hint as [Search] computes it, for every [int]: one less
    than the line, and the greatest [int] for the least one, where
    [diff.Line - 1] wraps around. *)
Lemma zero_based_hint (line : Z) :
  (minInt < line <= maxInt -> wrap_int (line - 1) = line - 1)
  /\ (line = minInt -> wrap_int (line - 1) = maxInt).
Proof.
  split.
  - intros H. apply wrap_int_small. unfold minInt, maxInt in *. lia.
  - intros ->. apply wrap_int_below.
Qed.

(** [Search] looks first at the lines from the clamped hint on. *)
Lemma Search_starts_at_clamped_hint (source : string) (diff : Diff) (threshold : float) :
  let lines := trimSplit source in
  let nLines := Z.of_nat (List.length lines) in
  let nSearch := Z.of_nat (List.length (trimSplit (Diff_Search diff))) in
  let startIdx := clamp_hint (Diff_Line diff) nLines in
  nSearch <> 0 -> startIdx + nSearch <= nLines ->
  acceptable lines diff threshold nSearch startIdx = true ->
  Search source diff threshold = Ret (edit_at lines diff nSearch startIdx, true).
Proof.
  intros lines nLines nSearch startIdx Hk Hroom Hacc.
  rewrite Search_unfold. fold lines nLines nSearch startIdx.
  replace (nSearch =? 0) with false by (symmetry; now apply Z.eqb_neq).
  replace (nLines <? startIdx + nSearch) with false by (symmetry; apply Z.ltb_ge; lia).
  cbn [orb]. f_equal.
  destruct (all_in_range_candidates_head nLines nSearch startIdx) as [rest ->];
    [unfold startIdx, clamp_hint; lia|exact Hroom|].
  unfold first_acceptable. cbn [find]. now rewrite Hacc.
Qed.

(** C10. [Parse] accepts every [int] as the hint of a block, zero and
    negative ones too, and hands it on unchanged. [Search] clamps the hint
    into the lines of a non-empty document: it starts from line 0 for a hint
    of 1 or less, from the hinted line (counted from 0) for a hint within
    the document, and from the last line for a hint beyond it and for the
    least [int], whose [diff.Line - 1] wraps around. [Search] looks first at
    the lines from there on, and it returns without an index or a slice
    bound out of range, whatever the hint of the diff. *)
Theorem hint_unchecked_then_clamped (z : Z) (source : string) (diff : Diff)
    (threshold : float) :
  minInt <= z <= maxInt ->
  source <> EmptyString ->
  let lines := trimSplit source in
  let nLines := Z.of_nat (List.length lines) in
  let nSearch := Z.of_nat (List.length (trimSplit (Diff_Search diff))) in
  let startIdx := clamp_hint (Diff_Line diff) nLines in
  Parse (hint_block (Itoa z)) = Ret ([mkDiff z one_line line_b], None)
  /\ 0 <= startIdx <= nLines - 1
  /\ (minInt < Diff_Line diff <= maxInt ->
      (Diff_Line diff <= 1 -> startIdx = 0)
      /\ (1 <= Diff_Line diff <= nLines -> startIdx = Diff_Line diff - 1)
      /\ (nLines <= Diff_Line diff -> startIdx = nLines - 1))
  /\ (Diff_Line diff = minInt -> nLines <= maxInt -> startIdx = nLines - 1)
  /\ (nSearch <> 0 -> startIdx + nSearch <= nLines ->
      acceptable lines diff threshold nSearch startIdx = true ->
      Search source diff threshold = Ret (edit_at lines diff nSearch startIdx, true))
  /\ exists result, Search source diff threshold = Ret result.
Proof.
  intros Hz Hsource lines nLines nSearch startIdx.
  assert (Hn : 1 <= nLines).
  { unfold nLines, lines. destruct (trimSplit source) eqn:E; [|simpl; lia].
    apply trimSplit_nil_iff in E. contradiction. }
  destruct (zero_based_hint (Diff_Line diff)) as [Hin Hleast].
  split; [apply Parse_hint_block, Atoi_Itoa, Hz|].
  split; [apply clamp_hint_range, Hn|].
  split; [|split; [|split]].
  - intros H. unfold startIdx, clamp_hint. rewrite (Hin H). lia.
  - intros H Hmax. unfold startIdx, clamp_hint. rewrite (Hleast H). lia.
  - apply Search_starts_at_clamped_hint.
  - rewrite Search_unfold. eauto.
Qed.

Lemma hint_unchecked_then_clamped_witness :
  Parse (hint_block "-7") = Ret ([mkDiff (-7) one_line line_b], None)
  /\ clamp_hint (-7) 3 = 0
  /\ Search three_lines (mkDiff (-7) one_line "x") 1 = Ret (mkEdit 0 2 "x", true)
  /\ exists result, Search three_lines (mkDiff (-7) one_line "x") 1 = Ret result.
Proof.
  destruct (hint_unchecked_then_clamped (-7) three_lines (mkDiff (-7) one_line "x") 1)
    as (HParse & _ & Hclamp & _ & Hfirst & Hret).
  - unfold minInt, maxInt. lia.
  - discriminate.
  - split; [exact HParse|].
    split.
    { apply Hclamp; [unfold minInt, maxInt|]; simpl; lia. }
    split; [|exact Hret].
    apply Hfirst.
    + discriminate.
    + vm_compute. discriminate.
    + vm_compute. reflexivity.
Defined.

(** C7. The similarity of two strings is [1 - d / max(len a, len b)] in
    binary64 arithmetic, where [len] counts bytes and [d] is the least
    number of single-byte insertions, deletions and substitutions that turn
    [a] into [b]; it is 1.0 when both strings are empty. *)
Theorem similarity_formula (a b : string) :
  edit_script a b (ComputeDistance a b)
  /\ (forall n, edit_script a b n -> ComputeDistance a b <= n)
  /\ (a = EmptyString -> b = EmptyString -> similarity a b = 1%float)
  /\ (a <> EmptyString \/ b <> EmptyString ->
      similarity a b
      = (1 - float64_of_int (ComputeDistance a b)
             / float64_of_int (Z.max (len a) (len b)))%float).
Proof.
  split; [apply ComputeDistance_script|].
  split; [intros n; apply ComputeDistance_least|].
  split.
  - intros -> ->. reflexivity.
  - intros H. unfold similarity.
    destruct ((len a =? 0) && (len b =? 0)) eqn:E; [|reflexivity].
    apply andb_true_iff in E as [Ea Eb].
    apply Z.eqb_eq, len_zero_iff in Ea. apply Z.eqb_eq, len_zero_iff in Eb.
    destruct H; contradiction.
Qed.

Lemma similarity_formula_witness :
  similarity "abcd" "abed" = 0.75%float /\ edit_script "abcd" "abed" 1.
Proof.
  destruct (similarity_formula "abcd" "abed") as (Hscript & _ & _ & Hformula).
  split.
  - rewrite Hformula by (left; discriminate). vm_compute. reflexivity.
  - exact Hscript.
Defined.

(** * The applier: what it accepts and what it returns *)

(** ** What [apply_loop] accepts *)

Lemma apply_loop_descending (edits : list Edit) (data : string) (lastEnd : Z) (out : string) :
  apply_loop edits data lastEnd = (out, None) -> descending_chain lastEnd edits.
Proof.
  revert data lastEnd. induction edits as [|e edits IH]; intros data lastEnd H; simpl in *;
    [exact I|].
  destruct (invalid_range data e) eqn:Er; [discriminate|].
  destruct (Edit_End e >? lastEnd) eqn:Eo; [discriminate|].
  unfold invalid_range in Er.
  apply orb_false_iff in Er as [Er _]. apply orb_false_iff in Er as [H1 H2].
  apply Z.ltb_ge in H1, H2. rewrite Z.gtb_ltb in Eo. apply Z.ltb_ge in Eo.
  repeat split; try lia. eapply IH, H.
Qed.

Lemma apply_loop_size (edits : list Edit) (data : string) (lastEnd : Z) (out : string) :
  apply_loop edits data lastEnd = (out, None) ->
  len out = len data + size_change edits.
Proof.
  revert data lastEnd. induction edits as [|e edits IH]; intros data lastEnd H; simpl in *.
  - injection H as <-. unfold size_change. simpl. lia.
  - destruct (invalid_range data e) eqn:Er; [discriminate|].
    destruct (Edit_End e >? lastEnd) eqn:Eo; [discriminate|].
    rewrite (IH _ _ H), (len_splice data e Er). unfold size_change. simpl. lia.
Qed.

Lemma size_change_perm (l l' : list Edit) :
  Permutation l l' -> size_change l = size_change l'.
Proof.
  unfold size_change. induction 1; simpl; lia.
Qed.

Lemma descending_chain_bounds (lastEnd : Z) (edits : list Edit) :
  descending_chain lastEnd edits ->
  Forall (fun e => 0 <= Edit_Start e <= Edit_End e /\ Edit_End e <= lastEnd) edits.
Proof.
  revert lastEnd. induction edits as [|e edits IH]; intros lastEnd H; [constructor|].
  destruct H as (H1 & H2 & H3). constructor; [lia|].
  eapply Forall_impl; [|apply (IH _ H3)]. simpl. intros; lia.
Qed.

Lemma descending_chain_disjoint (lastEnd : Z) (edits : list Edit) :
  descending_chain lastEnd edits -> pairwise_disjoint edits.
Proof.
  revert lastEnd. induction edits as [|e edits IH]; intros lastEnd H; [constructor|].
  destruct H as (H1 & H2 & H3). constructor; [|eapply IH, H3].
  eapply Forall_impl; [|apply (descending_chain_bounds _ _ H3)].
  unfold ranges_intersect. simpl. intros; lia.
Qed.

Lemma pairwise_disjoint_perm (l l' : list Edit) :
  Permutation l l' -> pairwise_disjoint l -> pairwise_disjoint l'.
Proof.
  unfold pairwise_disjoint. induction 1 as [|x l l' Hp IH|x y l|l l' l'' _ IH1 _ IH2]; intros H.
  - constructor.
  - inversion H as [|? ? Hx Hl]; subst. constructor; [|auto].
    rewrite Forall_forall in *. intros b Hb. apply Hx.
    eapply Permutation_in; [apply Permutation_sym; exact Hp|exact Hb].
  - inversion H as [|? ? Hy Hl]; subst. inversion Hl as [|? ? Hx Hl']; subst.
    inversion Hy as [|? ? Hyx Hyl]; subst.
    constructor; [|constructor; assumption].
    constructor; [|assumption]. unfold ranges_intersect in *. lia.
  - auto.
Qed.

(** X11. When [Apply] returns a document, every edit lies within the bounds
    of the source and no two edits of the list share a byte position. *)
Theorem Apply_ok_edits_disjoint (source : string) (edits : list Edit) (out : string) :
  Apply source edits = (out, None) ->
  Forall (in_bounds source) edits /\ pairwise_disjoint edits.
Proof.
  unfold Apply. destruct (Z.of_nat (List.length edits) =? 0) eqn:E.
  - apply Z.eqb_eq in E. destruct edits; [|simpl in E; lia].
    intros _. split; constructor.
  - intros H. apply apply_loop_descending in H.
    pose proof (sort_Slice_perm edits) as Hp. split.
    + apply descending_chain_bounds in H.
      rewrite Forall_forall in *. intros e He. unfold in_bounds.
      apply H. eapply Permutation_in; [apply Permutation_sym; exact Hp|exact He].
    + eapply pairwise_disjoint_perm; [exact Hp|].
      eapply descending_chain_disjoint, H.
Qed.

(** X12. The document that [Apply] returns is as long as the source plus,
    for every edit, the length of its text minus the length of its range. *)
Theorem Apply_ok_length (source : string) (edits : list Edit) (out : string) :
  Apply source edits = (out, None) ->
  len out = len source + size_change edits.
Proof.
  unfold Apply. destruct (Z.of_nat (List.length edits) =? 0) eqn:E.
  - apply Z.eqb_eq in E. destruct edits; [|simpl in E; lia].
    intros H. injection H as <-. unfold size_change. simpl. lia.
  - intros H. apply apply_loop_size in H.
    rewrite H. f_equal. apply size_change_perm, sort_Slice_perm.
Qed.

(** ** What [Apply] returns *)

(** X13. For edits that, put in ascending order, lie within the source, do
    not reach into each other and have distinct [Start]s, [Apply] returns,
    whatever the input order, the source with every range replaced by the
    text of its edit and everything between the ranges kept. *)
Theorem Apply_ascending_chain (source : string) (edits ascending : list Edit) :
  Permutation edits ascending ->
  ascending_chain 0 ascending (len source) ->
  NoDup (map Edit_Start ascending) ->
  Apply source edits = (patched source ascending, None).
Proof.
  intros Hp Hchain Hnd. unfold Apply.
  destruct (Z.of_nat (List.length edits) =? 0) eqn:E.
  - apply Z.eqb_eq in E. destruct edits; [|simpl in E; lia].
    apply Permutation_nil in Hp. subst. unfold patched. simpl.
    now rewrite segment_to_end.
  - assert (Hsort : sort_Slice edits = rev ascending).
    { symmetry. apply sorted_permutation_unique.
      - eapply Permutation_NoDup; [|exact Hnd].
        apply Permutation_map, Permutation_sym, Hp.
      - rewrite <- Permutation_rev. apply Permutation_sym, Hp.
      - apply (StronglySorted_rev start_le), (ascending_chain_sorted _ _ _ Hchain). }
    rewrite Hsort.
    pose proof (apply_loop_chain source ascending 0 (len source) EmptyString
                  ltac:(lia) ltac:(lia) Hchain) as H.
    rewrite append_empty_r in H. rewrite take_all in H by (unfold len; lia).
    rewrite H. simpl. now rewrite append_empty_r.
Qed.

Lemma Apply_ascending_chain_witness :
  let x := mkEdit 0 1 "X" in
  let y := mkEdit 2 2 "Y" in
  let z := mkEdit 4 6 "" in
  Apply "abcdef" [z; x; y] = ("XbYcd", None).
Proof.
  cbv zeta.
  apply (Apply_ascending_chain "abcdef" _ [mkEdit 0 1 "X"; mkEdit 2 2 "Y"; mkEdit 4 6 ""]).
  - apply (Permutation_cons_app [mkEdit 0 1 "X"; mkEdit 2 2 "Y"] []).
    rewrite app_nil_r. reflexivity.
  - simpl. unfold len. simpl. lia.
  - repeat constructor; simpl; intuition lia.
Defined.

(** * The locator and the applier together *)

(** ** Locating, then applying *)

Lemma take_length_app (a b : string) : take (String.length a) (String.append a b) = a.
Proof. induction a as [|c a IH]; simpl; [now destruct b|now rewrite IH]. Qed.

Lemma drop_length_app (a b : string) : drop (String.length a) (String.append a b) = b.
Proof. induction a as [|c a IH]; simpl; [reflexivity|exact IH]. Qed.

Lemma take_line_offset (lines : list string) (i : Z) :
  take (Z.to_nat (line_offset lines i)) (Join lines) = Join (firstn (Z.to_nat i) lines).
Proof.
  unfold line_offset, len. rewrite Nat2Z.id.
  rewrite <- (firstn_skipn (Z.to_nat i) lines) at 2.
  rewrite Join_app. apply take_length_app.
Qed.

Lemma drop_line_offset (lines : list string) (i : Z) :
  drop (Z.to_nat (line_offset lines i)) (Join lines) = Join (skipn (Z.to_nat i) lines).
Proof.
  unfold line_offset, len. rewrite Nat2Z.id.
  rewrite <- (firstn_skipn (Z.to_nat i) lines) at 2.
  rewrite Join_app. apply drop_length_app.
Qed.

Lemma Apply_single (source : string) (e : Edit) :
  in_bounds source e -> Apply source [e] = (splice source e, None).
Proof.
  unfold in_bounds. intros H. unfold Apply. cbn [List.length].
  change (Z.of_nat 1 =? 0) with false. cbv iota.
  change (sort_Slice [e]) with [e]. cbn [apply_loop].
  replace (invalid_range source e) with false.
  2:{ symmetry. unfold invalid_range. rewrite !orb_false_iff, Z.gtb_ltb, !Z.ltb_ge. lia. }
  replace (Edit_End e >? len source) with false
    by (symmetry; rewrite Z.gtb_ltb; apply Z.ltb_ge; lia).
  reflexivity.
Qed.

(** X8. Applying the edit of a successful [Search] replaces the lines of
    the accepted candidate, whose similarity reaches the threshold, by
    [diff.Replace], and keeps the lines before and after it. *)
Theorem Search_then_Apply (source : string) (diff : Diff) (threshold : float) (e : Edit) :
  Search source diff threshold = Ret (e, true) ->
  let lines := trimSplit source in
  let nSearch := Z.of_nat (List.length (trimSplit (Diff_Search diff))) in
  exists at_ : Z,
    0 <= at_ /\ at_ + nSearch <= Z.of_nat (List.length lines)
    /\ (threshold <=? similarity (chunk_at lines nSearch at_) (Diff_Search diff))%float = true
    /\ Apply source [e]
       = (String.append (Join (firstn (Z.to_nat at_) lines))
            (String.append (Diff_Replace diff)
               (Join (skipn (Z.to_nat (at_ + nSearch)) lines))), None).
Proof.
  intros H lines nSearch.
  pose proof (Search_found source diff threshold e H) as (at_ & F & -> & Hk & _ & H0 & H1).
  fold lines nSearch in F, H1, Hk.
  exists at_. split; [assumption|]. split; [assumption|].
  split; [apply find_some in F as [_ F]; exact F|].
  pose proof (line_offset_nonneg lines at_).
  pose proof (line_offset_mono lines at_ (at_ + nSearch) ltac:(lia)).
  pose proof (line_offset_le_total lines (at_ + nSearch)) as Htot.
  assert (Hsrc : Join lines = source) by apply Join_trimSplit.
  rewrite Hsrc in Htot.
  rewrite Apply_single by (unfold in_bounds, edit_at; simpl; fold lines nSearch; lia).
  unfold splice, edit_at. cbn [Edit_Start Edit_End Edit_Text]. fold lines nSearch.
  rewrite <- Hsrc at 1 2. now rewrite take_line_offset, drop_line_offset.
Qed.

Lemma Search_then_Apply_witness :
  exists at_ : Z,
    0 <= at_ /\ at_ + 1 <= 3
    /\ (0.75 <=? similarity (chunk_at (trimSplit three_lines) 1 at_) line_b)%float = true
    /\ Apply three_lines [mkEdit 2 4 "x"]
       = (String.append (Join (firstn (Z.to_nat at_) (trimSplit three_lines)))
            (String.append "x"
               (Join (skipn (Z.to_nat (at_ + 1)) (trimSplit three_lines)))), None).
Proof.
  apply (Search_then_Apply three_lines (mkDiff 1 line_b "x") 0.75 (mkEdit 2 4 "x")).
  vm_compute. reflexivity.
Defined.

(** ** A threshold that is not a number *)

Lemma find_all_false {A : Type} (f : A -> bool) (l : list A) :
  (forall x, f x = false) -> find f l = None.
Proof. intros H. induction l as [|x l IH]; simpl; [reflexivity|]. now rewrite H. Qed.

(** X9. With NaN as threshold [Search] reports no match: no similarity
    compares [>=] to it. *)
Theorem Search_NaN_threshold (source : string) (diff : Diff) :
  Search source diff nan = Ret (zero_Edit, false).
Proof.
  rewrite Search_unfold. destruct (_ || _); [reflexivity|].
  unfold first_acceptable. rewrite find_all_false; [reflexivity|].
  intros at_. unfold acceptable. rewrite FloatAxioms.leb_spec.
  replace (Prim2SF nan) with S754_nan by (vm_compute; reflexivity).
  reflexivity.
Qed.

(** * Lines *)

(** ** Splitting and joining *)

Lemma Lines_full_line (body rest : string) :
  no_newline body = true ->
  Lines (String.append body (String nl rest))
  = String.append body (String nl EmptyString) :: Lines rest.
Proof.
  induction body as [|c body IH]; intros H.
  - reflexivity.
  - unfold no_newline in H. cbn [all_chars] in H. apply andb_true_iff in H as [Hc Hb].
    unfold is_newline in Hc. apply negb_true_iff in Hc.
    cbn [String.append Lines]. rewrite Hc, (IH Hb). reflexivity.
Qed.

Lemma Lines_open_line (l : string) : open_line l -> Lines l = [l].
Proof.
  intros [Hn Hne]. induction l as [|c l IH]; [contradiction|].
  unfold no_newline in Hn. cbn [all_chars] in Hn. apply andb_true_iff in Hn as [Hc Hl].
  unfold is_newline in Hc. apply negb_true_iff in Hc.
  cbn [Lines]. rewrite Hc. destruct l as [|d l]; [reflexivity|].
  rewrite IH by (try assumption; discriminate). reflexivity.
Qed.

(** Splitting what was joined. *)
Lemma Lines_Join (lines : list string) : well_split lines -> Lines (Join lines) = lines.
Proof.
  induction lines as [|l lines IH]; intros H; [reflexivity|].
  destruct lines as [|l' lines].
  - simpl. rewrite append_empty_r. destruct H as [(body & Hb & ->)|H].
    + now rewrite Lines_full_line.
    + now apply Lines_open_line.
  - destruct H as [(body & Hb & ->) H].
    specialize (IH H). revert IH. generalize (l' :: lines) as others. intros others IH.
    cbn [Join]. rewrite append_assoc. cbn [String.append].
    rewrite Lines_full_line by assumption. now rewrite IH.
Qed.

Lemma Lines_Join_full (lines : list string) (rest : string) :
  Forall full_line lines ->
  Lines (String.append (Join lines) rest) = lines ++ Lines rest.
Proof.
  induction 1 as [|l lines (body & Hb & ->) _ IH]; [reflexivity|].
  cbn [Join]. rewrite !append_assoc. cbn [String.append app].
  rewrite Lines_full_line by assumption. now rewrite IH.
Qed.

Lemma Join_Lines (s : string) : Join (Lines s) = s.
Proof.
  induction s as [|c s IH]; simpl; [reflexivity|].
  destruct (Ascii.eqb c nl).
  - simpl. now rewrite IH.
  - destruct (Lines s) as [|l ls]; simpl in *; now rewrite <- IH.
Qed.

Lemma Lines_well_split (s : string) : well_split (Lines s).
Proof.
  induction s as [|c s IH]; [exact I|].
  cbn [Lines]. destruct (Ascii.eqb c nl) eqn:Ec.
  - apply Ascii.eqb_eq in Ec. subst c.
    assert (Hf : full_line (String nl EmptyString)) by (exists EmptyString; split; reflexivity).
    destruct (Lines s) as [|l ls]; [left; exact Hf|split; assumption].
  - assert (Hc : negb (is_newline c) = true) by (unfold is_newline; now rewrite Ec).
    destruct (Lines s) as [|l ls].
    + right. split; [|discriminate]. unfold no_newline. simpl. now rewrite Hc.
    + assert (Hfull : full_line l -> full_line (String c l)).
      { intros (body & Hb & ->). exists (String c body). split; [|reflexivity].
        unfold no_newline in *. simpl. now rewrite Hc. }
      assert (Hopen : open_line l -> open_line (String c l)).
      { intros [Hn _]. split; [|discriminate].
        unfold no_newline in *. simpl. now rewrite Hc. }
      destruct ls as [|l' ls].
      * destruct IH as [IH|IH]; [left|right]; auto.
      * destruct IH as [IH1 IH2]. split; auto.
Qed.

(** The lexer and the locator split a text into the same lines. *)
Lemma SplitAfter_not_nil (s : string) : SplitAfter s <> [].
Proof.
  destruct s as [|c s]; simpl; [discriminate|].
  destruct (Ascii.eqb c nl); [discriminate|]. destruct (SplitAfter s); discriminate.
Qed.

Lemma drop_empty_last_cons (l : string) (lines : list string) :
  lines <> [] -> drop_empty_last (l :: lines) = l :: drop_empty_last lines.
Proof.
  intros Hne. unfold drop_empty_last.
  destruct lines as [|l' lines]; [contradiction|].
  change (last (l :: l' :: lines) "?") with (last (l' :: lines) "?").
  change (removelast (l :: l' :: lines)) with (l :: removelast (l' :: lines)).
  replace (0 <? Z.of_nat (List.length (l :: l' :: lines))) with true
    by (symmetry; apply Z.ltb_lt; simpl; lia).
  replace (0 <? Z.of_nat (List.length (l' :: lines))) with true
    by (symmetry; apply Z.ltb_lt; simpl; lia).
  cbn [andb]. now destruct (String.eqb _ _).
Qed.

Lemma Lines_trimSplit (s : string) : Lines s = trimSplit s.
Proof.
  change (trimSplit s) with (drop_empty_last (SplitAfter s)).
  induction s as [|c s IH]; [reflexivity|].
  cbn [Lines SplitAfter]. destruct (Ascii.eqb c nl).
  - rewrite drop_empty_last_cons by apply SplitAfter_not_nil. now rewrite IH.
  - rewrite IH. pose proof (SplitAfter_not_nil s) as Hne.
    destruct (SplitAfter s) as [|l ls]; [contradiction|].
    destruct ls as [|l' ls].
    + unfold drop_empty_last. cbn. destruct l; reflexivity.
    + rewrite (drop_empty_last_cons l (l' :: ls)),
        (drop_empty_last_cons (String c l) (l' :: ls)) by discriminate.
      reflexivity.
Qed.

(** X7. [trimSplit] cuts a text into lines that, joined, give the text
    back; every line ends with its only newline, but for the last, which may
    have none, and no line is empty; [strings.Lines] of the lexer cuts the
    same lines; and the text has no other split into such lines. *)
Theorem trimSplit_lines (s : string) :
  Join (trimSplit s) = s
  /\ well_split (trimSplit s)
  /\ trimSplit s = Lines s
  /\ forall lines, well_split lines -> Join lines = s -> lines = trimSplit s.
Proof.
  split; [apply Join_trimSplit|].
  split; [rewrite <- Lines_trimSplit; apply Lines_well_split|].
  split; [symmetry; apply Lines_trimSplit|].
  intros lines Hw <-. rewrite <- Lines_trimSplit. symmetry. now apply Lines_Join.
Qed.

Lemma trimSplit_lines_witness :
  [one_line; line_b; "c"] = trimSplit (Join [one_line; line_b; "c"]).
Proof.
  apply (trimSplit_lines (Join [one_line; line_b; "c"])); [|reflexivity].
  simpl. split; [exists "a"; split; reflexivity|].
  split; [exists "b"; split; reflexivity|].
  right. split; [reflexivity|discriminate].
Defined.

(** * The parser on rendered blocks *)

(** ** Reading a block *)

Lemma tokenize_from_not_nil (lineNo : Z) (lines : list string) :
  tokenize_from lineNo lines <> [].
Proof. destruct lines; discriminate. Qed.

Lemma read_parser_at (current : token) (rest : list token) :
  read (mkParser current rest) = (current, parser_at rest).
Proof. unfold read. now destruct rest. Qed.

Lemma expect_parser_at (typ : tokenType) (tok : token) (rest : list token) :
  token_Type tok = typ ->
  expect typ (mkParser tok rest) = ((tok, None), parser_at rest).
Proof.
  intros H. unfold expect. rewrite read_parser_at, H.
  now destruct typ.
Qed.

Lemma read_text_stop (acc : string) (current : token) (rest : list token) :
  token_Type current <> textType ->
  read_text acc current rest = (acc, mkParser current rest).
Proof.
  intros H. destruct rest; simpl; destruct (token_Type current); try reflexivity;
    contradiction.
Qed.

Lemma read_text_step (acc : string) (current : token) (rest : list token) :
  token_Type current = textType -> rest <> [] ->
  read_text acc current rest
  = read_text (String.append acc (token_Text current))
      (parser_current (parser_at rest)) (parser_rest (parser_at rest)).
Proof.
  intros H Hne. destruct rest as [|tok rest]; [contradiction|].
  simpl. now rewrite H.
Qed.

(** The text lines in front of a marker are read as one text. *)
Lemma read_text_lines (lines : list string) :
  forall (acc : string) (lineNo : Z) (next : string) (others : list string),
    Forall text_line lines ->
    classify_line next <> textType ->
    let p := parser_at (tokenize_from lineNo (lines ++ next :: others)) in
    read_text acc (parser_current p) (parser_rest p)
    = (String.append acc (Join lines),
       parser_at (tokenize_from (lineNo + Z.of_nat (List.length lines)) (next :: others))).
Proof.
  induction lines as [|l lines IH]; intros acc lineNo next others Hl Hnext p; subst p.
  - cbn [app List.length Join]. rewrite append_empty_r, Z.add_0_r.
    rewrite tokenize_from_cons. cbn [parser_at parser_current parser_rest].
    now rewrite read_text_stop.
  - inversion Hl as [|? ? [_ Hc] Hl']; subst.
    cbn [app]. rewrite tokenize_from_cons, Hc.
    cbn [parser_at parser_current parser_rest].
    rewrite read_text_step by (try reflexivity; apply tokenize_from_not_nil).
    cbn [token_Text]. rewrite (IH _ _ _ _ Hl' Hnext).
    cbn [Join List.length]. rewrite append_assoc. do 3 f_equal. lia.
Qed.

Lemma classify_separator_line : classify_line separator_line = textSeparatorType.
Proof. vm_compute. reflexivity. Qed.

Lemma classify_end_line : classify_line end_line = endReplaceType.
Proof. vm_compute. reflexivity. Qed.

(** [parseDiff] on the lines of a block, whatever follows. *)
Lemma parseDiff_block (lineNo line : Z) (search replace others : list string) :
  minInt <= line <= maxInt ->
  Forall text_line search -> Forall text_line replace ->
  parseDiff (parser_at (tokenize_from lineNo (block_lines line search replace ++ others)))
  = ((mkDiff line (Join search) (Join replace), None),
     parser_at (tokenize_from
                  (lineNo + Z.of_nat (List.length (block_lines line search replace)))
                  others)).
Proof.
  intros Hline Hs Hr. unfold block_lines.
  replace ((marker_line (Itoa line) :: search ++ separator_line :: replace ++ [end_line])
           ++ others)
    with (marker_line (Itoa line)
          :: search ++ separator_line :: replace ++ end_line :: others)
    by (cbn [app]; rewrite <- app_assoc; cbn [app]; rewrite <- app_assoc; reflexivity).
  rewrite tokenize_from_cons, classify_marker_line.
  cbn [parser_at]. unfold parseDiff.
  rewrite (parseStartSearch_hint (Itoa line) line lineNo _ (Atoi_Itoa line Hline)).
  rewrite read_parser_at. cbn [snd]. cbv beta iota.
  rewrite (read_text_lines search no_text (lineNo + 1) separator_line _ Hs)
    by (rewrite classify_separator_line; discriminate).
  cbv beta iota. rewrite tokenize_from_cons, classify_separator_line.
  cbn [parser_at]. rewrite expect_parser_at by reflexivity. cbv beta iota.
  pose proof (read_text_lines replace no_text
                (lineNo + 1 + Z.of_nat (List.length search) + 1) end_line others Hr) as H.
  cbv zeta in H. rewrite H by (rewrite classify_end_line; discriminate). clear H.
  cbv beta iota. rewrite tokenize_from_cons, classify_end_line.
  cbn [parser_at]. rewrite expect_parser_at by reflexivity. cbv beta iota.
  cbn [String.append no_text]. do 3 f_equal.
  cbn [List.length]. rewrite length_app. cbn [List.length]. rewrite length_app.
  cbn [List.length]. lia.
Qed.

(** ** Parsing what was rendered *)

Lemma Parse_parser_at (input : string) :
  Parse input
  = parse_loop (S (List.length (tokenize input))) (parser_at (tokenize input)) [].
Proof. unfold Parse. rewrite read_parser_at. reflexivity. Qed.

Lemma parse_loop_step (fuel : nat) (p : parser) (diffs : list Diff) :
  token_Type (parser_current p) <> EOF ->
  parse_loop (S fuel) p diffs
  = match parseDiff p with
    | ((_, Some e), _) => Ret ([], Some e)
    | ((diff, None), p') => parse_loop fuel p' (diffs ++ [diff])
    end.
Proof.
  intros H. cbn [parse_loop].
  destruct (token_Type (parser_current p)); try contradiction;
    cbn [tokenType_eqb]; now destruct (parseDiff p) as [[? [?|]] ?].
Qed.

Lemma parse_loop_blocks (blocks : list block) :
  forall (fuel : nat) (lineNo : Z) (diffs : list Diff),
    (List.length blocks < fuel)%nat ->
    Forall block_ok blocks ->
    parse_loop fuel
      (parser_at (tokenize_from lineNo (List.concat (map lines_of_block blocks)))) diffs
    = Ret (diffs ++ map diff_of_block blocks, None).
Proof.
  induction blocks as [|[[line search] replace] blocks IH];
    intros fuel lineNo diffs Hfuel Hok.
  - destruct fuel as [|fuel]; [simpl in Hfuel; lia|].
    cbn [map List.concat]. rewrite app_nil_r. reflexivity.
  - destruct fuel as [|fuel]; [simpl in Hfuel; lia|].
    inversion Hok as [|? ? Hb Hok']; subst. cbn [block_ok] in Hb.
    destruct Hb as (Hline & Hs & Hr).
    cbn [map List.concat lines_of_block diff_of_block].
    rewrite parse_loop_step.
    2:{ unfold block_lines. cbn [app]. rewrite tokenize_from_cons, classify_marker_line.
        cbn [parser_at parser_current token_Type]. discriminate. }
    rewrite (parseDiff_block lineNo line search replace _ Hline Hs Hr).
    rewrite IH by (try assumption; simpl in Hfuel; lia).
    now rewrite <- app_assoc.
Qed.

Lemma tokenize_from_length (lineNo : Z) (lines : list string) :
  List.length (tokenize_from lineNo lines) = S (List.length lines).
Proof.
  revert lineNo. induction lines as [|l lines IH]; intros lineNo; simpl; [reflexivity|].
  now rewrite IH.
Qed.

Lemma no_newline_app (a b : string) :
  no_newline (String.append a b) = no_newline a && no_newline b.
Proof. apply all_chars_app. Qed.

Lemma marker_line_full (line : Z) :
  minInt <= line <= maxInt -> full_line (marker_line (Itoa line)).
Proof.
  intros H. exists (String.append startSearchPrefix (String.append " line:" (Itoa line))).
  split.
  - rewrite !no_newline_app. apply andb_true_iff. split; [reflexivity|].
    apply andb_true_iff. split; [reflexivity|].
    destruct (Atoi_hint_chars _ _ (Atoi_Itoa line H)) as [_ Hc].
    revert Hc. apply all_chars_weaken. intros c Hc.
    unfold is_newline. now rewrite (hint_char_not_newline c Hc).
  - unfold marker_line. now rewrite !append_assoc.
Qed.

Lemma block_lines_full (b : block) : block_ok b -> Forall full_line (lines_of_block b).
Proof.
  destruct b as [[line search] replace]. intros (Hline & Hs & Hr).
  unfold lines_of_block, block_lines.
  constructor; [now apply marker_line_full|].
  apply Forall_app. split; [eapply Forall_impl; [|exact Hs]; now intros l [Hl _]|].
  constructor; [exists textSeparator; split; reflexivity|].
  apply Forall_app. split; [eapply Forall_impl; [|exact Hr]; now intros l [Hl _]|].
  constructor; [exists endReplace; split; reflexivity|constructor].
Qed.

Lemma Join_block_lines (b : block) : Join (lines_of_block b) = render (diff_of_block b).
Proof.
  destruct b as [[line search] replace].
  unfold lines_of_block, block_lines, diff_of_block, render.
  cbn [Join Diff_Line Diff_Search Diff_Replace].
  rewrite Join_app. cbn [Join]. rewrite Join_app. cbn [Join].
  now rewrite append_empty_r.
Qed.

Lemma Join_concat (ls : list (list string)) : Join (List.concat ls) = Join (map Join ls).
Proof.
  induction ls as [|l ls IH]; simpl; [reflexivity|]. now rewrite Join_app, IH.
Qed.

Lemma Parse_blocks (blocks : list block) :
  Forall block_ok blocks ->
  Parse (Join (map render (map diff_of_block blocks)))
  = Ret (map diff_of_block blocks, None).
Proof.
  intros Hok.
  assert (Hlines : Lines (Join (map render (map diff_of_block blocks)))
                   = List.concat (map lines_of_block blocks)).
  { rewrite map_map.
    rewrite (map_ext _ (fun b => Join (lines_of_block b)))
      by (intros b; symmetry; apply Join_block_lines).
    rewrite <- (map_map lines_of_block Join), <- Join_concat.
    rewrite <- (append_empty_r (Join _)), Lines_Join_full; [apply app_nil_r|].
    apply Forall_concat. apply Forall_map.
    eapply Forall_impl; [|exact Hok]. apply block_lines_full. }
  rewrite Parse_parser_at. unfold tokenize. rewrite Hlines.
  rewrite parse_loop_blocks; [reflexivity| |assumption].
  rewrite tokenize_from_length.
  assert (List.length blocks <= List.length (List.concat (map lines_of_block blocks)))%nat.
  { clear. induction blocks as [|[[line search] replace] blocks IH]; simpl; [lia|].
    rewrite length_app. lia. }
  lia.
Qed.

(** X4. [Parse] reads back what the notation writes: for diffs whose [Line]
    is an [int] and whose [Search] and [Replace] are made of
    newline-terminated lines that the lexer takes for text, parsing the
    blocks of the diffs, one after the other, returns these diffs and no
    error. *)
Theorem Parse_render (diffs : list Diff) :
  Forall renderable diffs ->
  Parse (Join (map render diffs)) = Ret (diffs, None).
Proof.
  intros H.
  assert (Hb : exists blocks, Forall block_ok blocks /\ map diff_of_block blocks = diffs).
  { induction H as [|d diffs (Hline & (s & Hs & Es) & (r & Hr & Er)) _ (blocks & Hok & E)].
    - exists []. split; constructor.
    - exists ((Diff_Line d, s, r) :: blocks). split.
      + constructor; [|assumption]. exact (conj Hline (conj Hs Hr)).
      + cbn [map diff_of_block]. rewrite E, <- Es, <- Er. now destruct d. }
  destruct Hb as (blocks & Hok & <-). now apply Parse_blocks.
Qed.

Lemma Parse_render_witness :
  let d1 := mkDiff 2 one_line line_b in
  let d2 := mkDiff (-1) EmptyString lines_ab in
  Parse (Join (map render [d1; d2])) = Ret ([d1; d2], None).
Proof.
  cbv zeta. apply Parse_render.
  assert (Ha : text_line one_line) by (split; [exists "a"; split; reflexivity|reflexivity]).
  assert (Hb : text_line line_b) by (split; [exists "b"; split; reflexivity|reflexivity]).
  constructor; [|constructor; [|constructor]].
  - split; [unfold minInt, maxInt; simpl; lia|]. split.
    + exists [one_line]. split; [constructor; [exact Ha|constructor]|reflexivity].
    + exists [line_b]. split; [constructor; [exact Hb|constructor]|reflexivity].
  - split; [unfold minInt, maxInt; simpl; lia|]. split.
    + exists []. split; [constructor|reflexivity].
    + exists [one_line; line_b].
      split; [constructor; [exact Ha|constructor; [exact Hb|constructor]]|reflexivity].
Defined.

(** * The lexer *)

(** ** The token sequence *)

Lemma tokenize_from_line_tokens (lineNo : Z) (lines : list string) :
  tokenize_from lineNo lines = line_tokens lineNo lines ++ [mkToken EOF 0 no_text].
Proof.
  revert lineNo. induction lines as [|l lines IH]; intros lineNo; simpl; [reflexivity|].
  now rewrite IH.
Qed.

Lemma line_tokens_text (lineNo : Z) (lines : list string) :
  map token_Text (line_tokens lineNo lines) = lines.
Proof.
  revert lineNo. induction lines as [|l lines IH]; intros lineNo; simpl; [reflexivity|].
  now rewrite IH.
Qed.

Lemma line_tokens_nth (lines : list string) :
  forall (lineNo : Z) (i : nat) (tok : token),
    nth_error (line_tokens lineNo lines) i = Some tok ->
    token_Line tok = lineNo + Z.of_nat i
    /\ nth_error lines i = Some (token_Text tok)
    /\ token_Type tok = classify_line (token_Text tok).
Proof.
  induction lines as [|l lines IH]; intros lineNo [|i] tok H; simpl in *; try discriminate.
  - injection H as <-. simpl. repeat split. lia.
  - destruct (IH _ _ _ H) as (H1 & H2 & H3). repeat split; try assumption. lia.
Qed.

Lemma classify_line_kind (l : string) :
  classify_line l <> EOF /\ classify_line l <> invalidType.
Proof.
  unfold classify_line. cbv zeta.
  destruct (HasPrefix _ _); [split; discriminate|].
  destruct (String.eqb _ textSeparator); [split; discriminate|].
  destruct (String.eqb _ endReplace); split; discriminate.
Qed.

(** X2. [tokenize] yields one token for every line of the input, in order,
    and then one [EOF] token: the texts of the tokens, joined, are the input;
    token [i] carries line number [i], the text of line [i] and the kind of
    that line, which is never [EOF] or invalid. *)
Theorem tokenize_tokens (input : string) :
  exists tokens,
    tokenize input = tokens ++ [mkToken EOF 0 no_text]
    /\ Join (map token_Text tokens) = input
    /\ forall (i : nat) (tok : token),
         nth_error tokens i = Some tok ->
         token_Line tok = Z.of_nat i
         /\ nth_error (Lines input) i = Some (token_Text tok)
         /\ token_Type tok = classify_line (token_Text tok)
         /\ token_Type tok <> EOF /\ token_Type tok <> invalidType.
Proof.
  exists (line_tokens 0 (Lines input)).
  split; [apply tokenize_from_line_tokens|].
  split; [rewrite line_tokens_text; apply Join_Lines|].
  intros i tok H. destruct (line_tokens_nth _ _ _ _ H) as (H1 & H2 & H3).
  repeat split; try assumption; try lia.
  - rewrite H3. apply classify_line_kind.
  - rewrite H3. apply classify_line_kind.
Qed.

(** ** Marker lines *)

Lemma TrimRight_app_cutset (s t cutset : string) :
  all_chars (fun c => in_cutset c cutset) t = true ->
  TrimRight (String.append s t) cutset = TrimRight s cutset.
Proof.
  intros Ht. induction s as [|c s IH]; cbn [String.append TrimRight].
  - induction t as [|d t IHt]; [reflexivity|].
    cbn [all_chars] in Ht. apply andb_true_iff in Ht as [Hd Ht].
    cbn [TrimRight]. rewrite (IHt Ht). cbn [TrimRight]. now rewrite Hd.
  - now rewrite IH.
Qed.

Lemma TrimRight_split (s cutset : string) :
  exists t,
    all_chars (fun c => in_cutset c cutset) t = true
    /\ s = String.append (TrimRight s cutset) t.
Proof.
  induction s as [|c s (t & Ht & E)]; [exists EmptyString; split; reflexivity|].
  cbn [TrimRight]. destruct (TrimRight s cutset) as [|d r] eqn:Et.
  - destruct (in_cutset c cutset) eqn:Ec.
    + exists (String c s). split; [|reflexivity].
      cbn [all_chars]. rewrite Ec. simpl in E. now rewrite E.
    + exists t. split; [assumption|]. simpl in *. now rewrite <- E.
  - exists t. split; [assumption|]. cbn [String.append]. f_equal. exact E.
Qed.

(** X3. A line is a separator token exactly when it is [=======] followed
    by carriage returns and newlines only, and an end token exactly when it
    is [>>>>>>> REPLACE] followed by such bytes only. *)
Theorem marker_lines (l : string) :
  (classify_line l = textSeparatorType
   <-> exists t, all_chars (fun c => in_cutset c crlf) t = true
                 /\ l = String.append textSeparator t)
  /\ (classify_line l = endReplaceType
      <-> exists t, all_chars (fun c => in_cutset c crlf) t = true
                    /\ l = String.append endReplace t).
Proof.
  assert (Hsep : forall t, all_chars (fun c => in_cutset c crlf) t = true ->
            classify_line (String.append textSeparator t) = textSeparatorType).
  { intros t Ht. unfold classify_line. cbv zeta. fold crlf.
    rewrite (TrimRight_app_cutset textSeparator t crlf Ht).
    replace (HasPrefix (String.append textSeparator t) startSearchPrefix) with false
      by reflexivity.
    reflexivity. }
  assert (Hend : forall t, all_chars (fun c => in_cutset c crlf) t = true ->
            classify_line (String.append endReplace t) = endReplaceType).
  { intros t Ht. unfold classify_line. cbv zeta. fold crlf.
    rewrite (TrimRight_app_cutset endReplace t crlf Ht).
    replace (HasPrefix (String.append endReplace t) startSearchPrefix) with false
      by reflexivity.
    reflexivity. }
  split; split.
  - unfold classify_line. cbv zeta. fold crlf. intros H.
    destruct (HasPrefix l startSearchPrefix); [discriminate|].
    destruct (String.eqb_spec (TrimRight l crlf) textSeparator) as [E|_].
    + destruct (TrimRight_split l crlf) as (t & Ht & El). exists t.
      split; [assumption|]. now rewrite <- E.
    + destruct (String.eqb _ endReplace); discriminate.
  - intros (t & Ht & ->). now apply Hsep.
  - unfold classify_line. cbv zeta. fold crlf. intros H.
    destruct (HasPrefix l startSearchPrefix); [discriminate|].
    destruct (String.eqb_spec (TrimRight l crlf) textSeparator) as [_|_]; [discriminate|].
    destruct (String.eqb_spec (TrimRight l crlf) endReplace) as [E|_]; [|discriminate].
    destruct (TrimRight_split l crlf) as (t & Ht & El). exists t.
    split; [assumption|]. now rewrite <- E.
  - intros (t & Ht & ->). now apply Hend.
Qed.

(** * The parser: errors *)

(** ** Hints that are not numbers *)

Lemma parseStartSearch_hint_chars (hint : string) (lineNo : Z) (rest : list token) :
  hint <> EmptyString -> all_chars is_hint_char hint = true ->
  parseStartSearch (mkParser (mkToken startSearchType lineNo (marker_line hint)) rest)
  = (match Atoi hint with
     | Some line => (line, None)
     | None => (0, Some (ErrHintNumber (marker_line hint)))
     end, parser_at rest).
Proof.
  intros Hne Hchars. unfold parseStartSearch. cbn [parser_current parser_rest].
  rewrite skip_blank_marker by reflexivity.
  rewrite expect_parser_at by reflexivity. cbv beta iota. cbn [token_Text].
  unfold CutPrefix at 1.
  replace (HasPrefix (marker_line hint) startSearchPrefix) with true by reflexivity.
  replace (drop (String.length startSearchPrefix) (marker_line hint))
    with (String.append " line:" (String.append hint (String nl EmptyString)))
    by reflexivity.
  rewrite (TrimSpace_hint hint Hne Hchars).
  unfold CutPrefix.
  replace (HasPrefix (String.append "line:" hint) "line:") with true
    by (destruct hint; [contradiction|reflexivity]).
  replace (drop (String.length "line:") (String.append "line:" hint)) with hint
    by reflexivity.
  cbn [negb]. now destruct (Atoi hint).
Qed.

(** X6. A block whose hint is made of digits and signs but is not an [int]
    for [strconv.Atoi] (a value out of range, a misplaced sign) makes
    [Parse] fail with the error that quotes the marker line, and return no
    diff. *)
Theorem Parse_hint_not_int (hint : string) :
  hint <> EmptyString -> all_chars is_hint_char hint = true -> Atoi hint = None ->
  Parse (hint_block hint) = Ret ([], Some (ErrHintNumber (marker_line hint))).
Proof.
  intros Hne Hchars Hatoi.
  rewrite (Parse_first_token _ _ _ (tokenize_hint_block hint Hchars)).
  rewrite parse_loop_step by (cbn; discriminate).
  unfold parseDiff. rewrite (parseStartSearch_hint_chars hint 0 _ Hne Hchars), Hatoi.
  reflexivity.
Qed.

Lemma Parse_hint_not_int_witness :
  Parse (hint_block "9223372036854775808")
  = Ret ([], Some (ErrHintNumber (marker_line "9223372036854775808"))).
Proof.
  apply Parse_hint_not_int; [discriminate|reflexivity|vm_compute; reflexivity].
Defined.

(** ** What follows the blocks *)

Lemma skip_blank_stop (tok : token) (rest : list token) :
  ~ blank_token tok -> skip_blank tok rest = mkParser tok rest.
Proof.
  intros H. unfold blank_token in H.
  assert (E : tokenType_eqb (token_Type tok) textType
              && String.eqb (TrimSpace (token_Text tok)) EmptyString = false).
  { apply andb_false_iff.
    destruct (token_Type tok) eqn:Et; try (left; reflexivity).
    right. apply String.eqb_neq. intros E. apply H. now split. }
  destruct rest; simpl; now rewrite E.
Qed.

Lemma skip_blank_blanks (blanks : list token) :
  forall (tok : token) (rest : list token),
    Forall blank_token blanks -> ~ blank_token tok ->
    let p := parser_at (blanks ++ tok :: rest) in
    skip_blank (parser_current p) (parser_rest p) = mkParser tok rest.
Proof.
  induction blanks as [|b blanks IH]; intros tok rest Hb Htok p; subst p.
  - cbn [app parser_at parser_current parser_rest]. now apply skip_blank_stop.
  - inversion Hb as [|? ? [Hty Htrim] Hb']; subst.
    cbn [app parser_at parser_current parser_rest].
    specialize (IH tok rest Hb' Htok). cbv zeta in IH.
    destruct (blanks ++ tok :: rest) as [|t r] eqn:E.
    + destruct blanks; discriminate.
    + cbn [parser_at parser_current parser_rest] in IH.
      cbn [skip_blank]. rewrite Hty, Htrim. cbn. exact IH.
Qed.

(** The round of the loop that meets something else than a start marker. *)
Lemma parse_loop_no_marker (fuel : nat) (blanks : list token) (tok : token)
    (rest : list token) (diffs : list Diff) :
  Forall blank_token blanks -> ~ blank_token tok ->
  token_Type tok <> startSearchType ->
  (blanks = [] -> token_Type tok <> EOF) ->
  parse_loop (S fuel) (parser_at (blanks ++ tok :: rest)) diffs
  = Ret ([], Some (ErrExpected startSearchType (token_Type tok) (token_Text tok)
                     (token_Line tok))).
Proof.
  intros Hb Htok Hstart Heof.
  rewrite parse_loop_step.
  2:{ destruct blanks as [|b blanks]; cbn [app parser_at parser_current].
      - now apply Heof.
      - inversion Hb as [|? ? [Hty _] _]; subst. rewrite Hty. discriminate. }
  unfold parseDiff, parseStartSearch.
  rewrite (skip_blank_blanks blanks tok rest Hb Htok).
  unfold expect. rewrite read_parser_at.
  destruct (token_Type tok) eqn:Et; try contradiction; reflexivity.
Qed.

Lemma parse_loop_blocks_then (blocks : list block) :
  forall (fuel : nat) (lineNo : Z) (diffs : list Diff) (others : list string),
    Forall block_ok blocks ->
    parse_loop (List.length blocks + fuel)
      (parser_at (tokenize_from lineNo (List.concat (map lines_of_block blocks) ++ others)))
      diffs
    = parse_loop fuel
        (parser_at (tokenize_from
                      (lineNo + Z.of_nat (List.length (List.concat (map lines_of_block blocks))))
                      others))
        (diffs ++ map diff_of_block blocks).
Proof.
  induction blocks as [|[[line search] replace] blocks IH];
    intros fuel lineNo diffs others Hok.
  - cbn [map List.concat List.length app Nat.add]. now rewrite Z.add_0_r, app_nil_r.
  - inversion Hok as [|? ? Hb Hok']; subst. cbn [block_ok] in Hb.
    destruct Hb as (Hline & Hs & Hr).
    cbn [map List.concat lines_of_block diff_of_block List.length Nat.add].
    rewrite <- app_assoc.
    rewrite parse_loop_step.
    2:{ unfold block_lines. cbn [app]. rewrite tokenize_from_cons, classify_marker_line.
        cbn [parser_at parser_current token_Type]. discriminate. }
    rewrite (parseDiff_block lineNo line search replace _ Hline Hs Hr).
    rewrite IH by assumption. rewrite <- app_assoc. cbn [app].
    do 3 f_equal. rewrite length_app. lia.
Qed.

(** X5. No partial result: when well-formed blocks are followed by blank
    lines and then by anything but a start marker (a text line, a separator,
    an end marker, or the end of the input after at least one blank line),
    [Parse] returns no diff at all, and the error that names the expected
    start marker, and the kind, text and line number of what it found. *)
Theorem Parse_no_partial_result (diffs : list Diff) (tail : string)
    (blanks : list token) (tok : token) (rest : list token) :
  Forall renderable diffs ->
  tokenize_from (Z.of_nat (List.length (Lines (Join (map render diffs))))) (Lines tail)
  = blanks ++ tok :: rest ->
  Forall blank_token blanks -> ~ blank_token tok ->
  token_Type tok <> startSearchType ->
  (blanks = [] -> token_Type tok <> EOF) ->
  Parse (String.append (Join (map render diffs)) tail)
  = Ret ([], Some (ErrExpected startSearchType (token_Type tok) (token_Text tok)
                     (token_Line tok))).
Proof.
  intros H Htoks Hb Htok Hstart Heof.
  assert (Hbl : exists blocks, Forall block_ok blocks /\ map diff_of_block blocks = diffs).
  { clear - H.
    induction H as [|d diffs (Hline & (s & Hs & Es) & (r & Hr & Er)) _ (blocks & Hok & E)].
    - exists []. split; constructor.
    - exists ((Diff_Line d, s, r) :: blocks). split.
      + constructor; [|assumption]. exact (conj Hline (conj Hs Hr)).
      + cbn [map diff_of_block]. rewrite E, <- Es, <- Er. now destruct d. }
  destruct Hbl as (blocks & Hok & <-).
  assert (Hfull : Forall full_line (List.concat (map lines_of_block blocks))).
  { apply Forall_concat. apply Forall_map.
    eapply Forall_impl; [|exact Hok]. apply block_lines_full. }
  assert (Hjoin : Join (map render (map diff_of_block blocks))
                  = Join (List.concat (map lines_of_block blocks))).
  { rewrite map_map.
    rewrite (map_ext _ (fun b => Join (lines_of_block b)))
      by (intros b; symmetry; apply Join_block_lines).
    now rewrite <- (map_map lines_of_block Join), <- Join_concat. }
  rewrite Hjoin in Htoks |- *.
  assert (Hl : Lines (Join (List.concat (map lines_of_block blocks)))
               = List.concat (map lines_of_block blocks)).
  { rewrite <- (append_empty_r (Join _)), Lines_Join_full by assumption. apply app_nil_r. }
  rewrite Hl in Htoks.
  rewrite Parse_parser_at. unfold tokenize. rewrite Lines_Join_full by assumption.
  rewrite tokenize_from_length, length_app.
  assert (Hn : (List.length blocks <= List.length (List.concat (map lines_of_block blocks)))%nat).
  { clear. induction blocks as [|[[line search] replace] blocks IH]; simpl; [lia|].
    rewrite length_app. lia. }
  replace (S (S (List.length (List.concat (map lines_of_block blocks))
                 + List.length (Lines tail))))
    with (List.length blocks
          + S (S (List.length (List.concat (map lines_of_block blocks)) - List.length blocks
                  + List.length (Lines tail))))%nat by lia.
  rewrite (parse_loop_blocks_then blocks _ 0 [] (Lines tail) Hok).
  rewrite Z.add_0_l, Htoks.
  now apply parse_loop_no_marker.
Qed.

Lemma Parse_no_partial_result_witness :
  Parse (String.append (Join (map render [mkDiff 2 one_line line_b])) one_line)
  = Ret ([], Some (ErrExpected startSearchType textType one_line 5)).
Proof.
  apply (Parse_no_partial_result [mkDiff 2 one_line line_b] one_line []
           (mkToken textType 5 one_line) [mkToken EOF 0 no_text]).
  - constructor; [|constructor].
    assert (Ha : text_line one_line) by (split; [exists "a"; split; reflexivity|reflexivity]).
    assert (Hb : text_line line_b) by (split; [exists "b"; split; reflexivity|reflexivity]).
    split; [unfold minInt, maxInt; simpl; lia|]. split.
    + exists [one_line]. split; [constructor; [exact Ha|constructor]|reflexivity].
    + exists [line_b]. split; [constructor; [exact Hb|constructor]|reflexivity].
  - vm_compute. reflexivity.
  - constructor.
  - intros [_ H]. vm_compute in H. discriminate.
  - discriminate.
  - discriminate.
Defined.

(** * The locator: hints *)

(** ** Hints beyond the document *)

Lemma Search_by_clamped_hint (source : string) (d d' : Diff) (threshold : float) :
  Diff_Search d = Diff_Search d' -> Diff_Replace d = Diff_Replace d' ->
  clamp_hint (Diff_Line d) (Z.of_nat (List.length (trimSplit source)))
  = clamp_hint (Diff_Line d') (Z.of_nat (List.length (trimSplit source))) ->
  Search source d threshold = Search source d' threshold.
Proof.
  intros Hs Hr Hc. rewrite !Search_unfold, <- Hs, <- Hc.
  unfold first_acceptable, acceptable, edit_at. now rewrite <- Hs, <- Hr.
Qed.

(** X10. A hint at or below line 1 searches from the first line, a hint at
    or beyond the last line from the last one; the least [int] as hint wraps
    around in [diff.Line - 1] and searches from the last line too. *)
Theorem Search_hint_saturates (source search replace : string) (line : Z)
    (threshold : float) :
  let nLines := Z.of_nat (List.length (trimSplit source)) in
  (minInt < line <= 1 ->
   Search source (mkDiff line search replace) threshold
   = Search source (mkDiff 1 search replace) threshold)
  /\ (nLines <= line <= maxInt ->
      Search source (mkDiff line search replace) threshold
      = Search source (mkDiff nLines search replace) threshold)
  /\ (nLines <= maxInt ->
      Search source (mkDiff minInt search replace) threshold
      = Search source (mkDiff nLines search replace) threshold).
Proof.
  intros nLines.
  assert (Hn : 0 <= nLines) by (unfold nLines; lia).
  split; [|split].
  - intros H. apply Search_by_clamped_hint; try reflexivity.
    fold nLines. cbn [Diff_Line]. unfold clamp_hint.
    rewrite wrap_int_small by (unfold minInt, maxInt in *; lia).
    change (wrap_int (1 - 1)) with 0. lia.
  - intros H. apply Search_by_clamped_hint; try reflexivity.
    fold nLines. cbn [Diff_Line]. unfold clamp_hint.
    rewrite (wrap_int_small (line - 1)) by (unfold minInt, maxInt in *; lia).
    rewrite (wrap_int_small (nLines - 1)) by (unfold minInt, maxInt in *; lia).
    lia.
  - intros Hle. apply Search_by_clamped_hint; try reflexivity.
    fold nLines. cbn [Diff_Line]. unfold clamp_hint.
    rewrite wrap_int_below.
    rewrite (wrap_int_small (nLines - 1)) by (unfold minInt, maxInt in *; lia).
    unfold maxInt in *. lia.
Qed.

Lemma Search_hint_saturates_witness :
  Search three_lines (mkDiff (-5) line_b "x") 1
  = Search three_lines (mkDiff 1 line_b "x") 1
  /\ Search three_lines (mkDiff 40 line_b "x") 1
     = Search three_lines (mkDiff 3 line_b "x") 1
  /\ Search three_lines (mkDiff minInt line_b "x") 1
     = Search three_lines (mkDiff 3 line_b "x") 1.
Proof.
  destruct (Search_hint_saturates three_lines line_b "x" (-5) 1) as (H1 & _ & H3).
  destruct (Search_hint_saturates three_lines line_b "x" 40 1) as (_ & H2 & _).
  split; [apply H1; unfold minInt; lia|].
  split; [apply H2; unfold maxInt; simpl; lia|].
  apply H3. unfold maxInt. simpl. lia.
Defined.


Lemma Apply_ok_edits_disjoint_witness :
  Forall (in_bounds "abcdef") [mkEdit 4 6 ""; mkEdit 0 1 "X"]
  /\ pairwise_disjoint [mkEdit 4 6 ""; mkEdit 0 1 "X"].
Proof.
  apply (Apply_ok_edits_disjoint "abcdef" [mkEdit 4 6 ""; mkEdit 0 1 "X"] "Xbcd").
  reflexivity.
Defined.

Lemma Apply_ok_length_witness :
  len "Xbcd" = len "abcdef" + size_change [mkEdit 4 6 ""; mkEdit 0 1 "X"].
Proof.
  apply (Apply_ok_length "abcdef" [mkEdit 4 6 ""; mkEdit 0 1 "X"] "Xbcd").
  reflexivity.
Defined.

(** * The locator: which candidate *)

(** ** The nearest acceptable candidate *)

Lemma find_app_split {A : Type} (f : A -> bool) (u v : list A) :
  find f (u ++ v) = match find f u with
                    | Some y => Some y
                    | None => find f v
                    end.
Proof.
  induction u as [|a u IH]; simpl; [reflexivity|]. now destruct (f a).
Qed.

Lemma find_flat_map {A B : Type} (f : B -> bool) (g : A -> list B) (l : list A) (x : B) :
  find f (flat_map g l) = Some x ->
  exists l1 r l2,
    l = l1 ++ r :: l2 /\ In x (g r) /\ f x = true
    /\ forall r' y, In r' l1 -> In y (g r') -> f y = false.
Proof.
  induction l as [|a l IH]; intros H; [discriminate|].
  cbn [flat_map] in H. rewrite find_app_split in H.
  destruct (find f (g a)) as [y|] eqn:E.
  - injection H as ->. apply find_some in E as [Hin Hf].
    exists [], a, l. repeat split; try assumption. intros r' y' [].
  - destruct (IH H) as (l1 & r & l2 & -> & Hin & Hf & Hbefore).
    exists (a :: l1), r, l2. repeat split; try assumption.
    intros r' y [<-|Hr'] Hy.
    + eapply find_none; eassumption.
    + eapply Hbefore; eassumption.
Qed.

Lemma radii_split (from len : nat) (l1 l2 : list Z) (r : Z) :
  map Z.of_nat (seq from len) = l1 ++ r :: l2 ->
  r = Z.of_nat (from + List.length l1)
  /\ forall r', Z.of_nat from <= r' < r -> In r' l1.
Proof.
  revert from len. induction l1 as [|a l1 IH]; intros from len H.
  - destruct len as [|len]; [discriminate|]. simpl in H. injection H as <- _.
    split; [simpl; lia|]. intros r' Hr'. lia.
  - destruct len as [|len]; [discriminate|]. simpl in H. injection H as <- H.
    destruct (IH _ _ H) as [-> Hin]. split; [simpl; lia|].
    intros r' Hr'. destruct (Z.eq_dec r' (Z.of_nat from)) as [->|Hne]; [now left|].
    right. apply Hin. lia.
Qed.

Lemma candidate_at_radius (nLines nSearch startIdx at_ : Z) :
  0 <= at_ -> at_ + nSearch <= nLines ->
  In at_
    ((if above_in_range nLines nSearch startIdx (Z.abs (at_ - startIdx))
      then [startIdx - Z.abs (at_ - startIdx)] else [])
     ++ (if below_in_range nLines nSearch startIdx (Z.abs (at_ - startIdx))
         then [startIdx + Z.abs (at_ - startIdx)] else [])).
Proof.
  intros H0 H1. apply in_app_iff.
  destruct (Z.le_gt_cases at_ startIdx) as [Hle|Hgt].
  - left. replace (above_in_range nLines nSearch startIdx (Z.abs (at_ - startIdx))) with true.
    + left. lia.
    + symmetry. unfold above_in_range. apply andb_true_iff. rewrite !Z.leb_le. lia.
  - right. replace (below_in_range nLines nSearch startIdx (Z.abs (at_ - startIdx))) with true.
    + left. lia.
    + symmetry. unfold below_in_range. apply andb_true_iff. rewrite Z.ltb_lt, Z.leb_le. lia.
Qed.

Lemma all_in_range_candidates_complete (nLines nSearch startIdx at_ : Z) :
  0 <= startIdx <= nLines -> 0 <= at_ -> 0 <= nSearch -> at_ + nSearch <= nLines ->
  In at_ (all_in_range_candidates nLines nSearch startIdx).
Proof.
  intros Hs H0 Hk H1. unfold all_in_range_candidates.
  apply in_flat_map. exists (Z.abs (at_ - startIdx)). split.
  - apply in_map_iff. exists (Z.to_nat (Z.abs (at_ - startIdx))). split; [lia|].
    apply in_seq. lia.
  - now apply candidate_at_radius.
Qed.

(** X14. The candidate of a successful [Search] is acceptable, and no
    acceptable candidate within the lines of the document starts nearer to
    the clamped hint. *)
Theorem Search_nearest_acceptable (source : string) (diff : Diff) (threshold : float)
    (e : Edit) :
  Search source diff threshold = Ret (e, true) ->
  let lines := trimSplit source in
  let nLines := Z.of_nat (List.length lines) in
  let nSearch := Z.of_nat (List.length (trimSplit (Diff_Search diff))) in
  let startIdx := clamp_hint (Diff_Line diff) nLines in
  exists at_ : Z,
    e = edit_at lines diff nSearch at_
    /\ acceptable lines diff threshold nSearch at_ = true
    /\ forall at' : Z,
         0 <= at' -> at' + nSearch <= nLines ->
         acceptable lines diff threshold nSearch at' = true ->
         Z.abs (at_ - startIdx) <= Z.abs (at' - startIdx).
Proof.
  intros H lines nLines nSearch startIdx.
  pose proof (Search_found source diff threshold e H) as (at_ & F & -> & Hk & Hroom & H0 & H1).
  fold lines nLines nSearch startIdx in F, Hroom, H1, Hk.
  exists at_. split; [reflexivity|].
  unfold all_in_range_candidates in F.
  destruct (find_flat_map _ _ _ _ F) as (l1 & r & l2 & Hsplit & Hin & Hacc & Hbefore).
  split; [assumption|].
  intros at' H0' H1' Hacc'.
  destruct (radii_split _ _ _ _ _ Hsplit) as [Hr Hsmaller].
  assert (Hrad : Z.abs (at_ - startIdx) = r).
  { unfold above_in_range, below_in_range in Hin.
    apply in_app_iff in Hin as [Hin|Hin];
      destruct (_ && _) eqn:E in Hin; try contradiction;
      apply andb_true_iff in E; rewrite ?Z.leb_le, ?Z.ltb_lt in E;
      destruct Hin as [<-|[]]; lia. }
  rewrite Hrad.
  destruct (Z.le_gt_cases r (Z.abs (at' - startIdx))) as [Hle|Hgt]; [assumption|].
  exfalso.
  assert (Hin' : In (Z.abs (at' - startIdx)) l1) by (apply Hsmaller; lia).
  pose proof (Hbefore _ at' Hin' (candidate_at_radius nLines nSearch startIdx at' H0' H1')) as Hf.
  rewrite Hf in Hacc'. discriminate.
Qed.

Lemma Search_nearest_acceptable_witness :
  exists at_ : Z,
    mkEdit 2 4 "x" = edit_at (trimSplit three_lines) (mkDiff 1 line_b "x") 1 at_
    /\ acceptable (trimSplit three_lines) (mkDiff 1 line_b "x") 1 1 at_ = true
    /\ forall at' : Z,
         0 <= at' -> at' + 1 <= 3 ->
         acceptable (trimSplit three_lines) (mkDiff 1 line_b "x") 1 1 at' = true ->
         Z.abs (at_ - 0) <= Z.abs (at' - 0).
Proof.
  apply (Search_nearest_acceptable three_lines (mkDiff 1 line_b "x") 1 (mkEdit 2 4 "x")).
  vm_compute. reflexivity.
Defined.

(** X15. When the search text spans at least one line and the clamped hint
    leaves room for it, [Search] succeeds exactly when some line range of
    the document, anywhere, has a similarity that reaches the threshold. *)
Theorem Search_finds_what_exists (source : string) (diff : Diff) (threshold : float) :
  let lines := trimSplit source in
  let nLines := Z.of_nat (List.length lines) in
  let nSearch := Z.of_nat (List.length (trimSplit (Diff_Search diff))) in
  let startIdx := clamp_hint (Diff_Line diff) nLines in
  1 <= nSearch -> startIdx + nSearch <= nLines ->
  ((exists at_ : Z, 0 <= at_ /\ at_ + nSearch <= nLines
                    /\ acceptable lines diff threshold nSearch at_ = true)
   <-> exists e, Search source diff threshold = Ret (e, true)).
Proof.
  intros lines nLines nSearch startIdx Hk Hroom.
  assert (Hs : 0 <= startIdx <= nLines) by (unfold startIdx, clamp_hint; lia).
  split.
  - intros (at_ & H0 & H1 & Hacc).
    rewrite Search_unfold. fold lines nLines nSearch startIdx.
    replace ((nSearch =? 0) || (nLines <? startIdx + nSearch)) with false.
    2:{ symmetry. apply orb_false_iff. split; [apply Z.eqb_neq|apply Z.ltb_ge]; lia. }
    unfold first_acceptable.
    destruct (find _ _) as [c|] eqn:F; [eauto|].
    pose proof (find_none _ _ F at_
                  (all_in_range_candidates_complete nLines nSearch startIdx at_ Hs H0
                     ltac:(lia) H1)) as Hf.
    rewrite Hf in Hacc. discriminate.
  - intros (e & H).
    pose proof (Search_found source diff threshold e H) as (at_ & F & _ & _ & _ & H0 & H1).
    fold lines nLines nSearch startIdx in F, H1.
    exists at_. apply find_some in F as [_ F]. auto.
Qed.

Lemma Search_finds_what_exists_witness :
  (exists at_ : Z, 0 <= at_ /\ at_ + 1 <= 3
                   /\ acceptable (trimSplit three_lines) (mkDiff 1 line_b "x") 1 1 at_ = true)
  <-> exists e, Search three_lines (mkDiff 1 line_b "x") 1 = Ret (e, true).
Proof.
  apply (Search_finds_what_exists three_lines (mkDiff 1 line_b "x") 1).
  - vm_compute. discriminate.
  - vm_compute. discriminate.
Defined.
